(** * TinyTerminal: the connection handler of [src/server.js]

    A shallow embedding of the server side of TinyTerminal and the
    properties of its token comparison, origin check and per-connection
    state machine.

    Conventions of the embedding:
    - a JavaScript string is the list of its UTF-16 code units ([jsstring]);
      a [Buffer] is the list of its bytes; both are lists of [Z];
    - a JavaScript number is kept as [Int z] when [Number.isInteger] holds of
      it and as [NonInt] otherwise (NaN, infinities, fractions);
    - a function that can throw returns a [Completion];
    - the calls made on the WebSocket, on node-pty and on the timer API are
      recorded, in order, as a list of [Call]s (the view of the mocks in
      [tests/server.test.js]); calls to [log] are not recorded, and the
      registration of a handler ([ws.on], [onData], [onExit]) shows as the
      events that the handler receives afterwards;
    - [pty.spawn], [ws.send] and [ws.close] are taken to return normally. *)

From Stdlib Require Import ZArith List Bool Lia String Ascii.
From Stdlib Require QArith.
From stdpp Require Import base option list gmap strings.
Import ListNotations.

Local Open Scope Z_scope.

(** ** JavaScript values *)

Definition jsstring := list Z.

(** The code units of an ASCII literal of the source. *)
Fixpoint js (s : string) : jsstring :=
  match s with
  | EmptyString => []
  | String c r => Z.of_N (N_of_ascii c) :: js r
  end.

Inductive JSNum :=
| Int (z : Z)
| NonInt.

Inductive JSValue :=
| JSUndefined
| JSNull
| JSBoolean (b : bool)
| JSNumber (n : JSNum)
| JSString (s : jsstring)
| JSObject.

Inductive JSType :=
| TUndefined | TObject | TBoolean | TNumber | TString.

Definition typeof (v : JSValue) : JSType :=
  match v with
  | JSUndefined => TUndefined
  | JSNull => TObject
  | JSBoolean _ => TBoolean
  | JSNumber _ => TNumber
  | JSString _ => TString
  | JSObject => TObject
  end.

Fixpoint jsstring_eqb (a b : jsstring) : bool :=
  match a, b with
  | [], [] => true
  | x :: a', y :: b' => (x =? y) && jsstring_eqb a' b'
  | _, _ => false
  end.

(** [v === 'literal'] *)
Definition strict_eq_string (v : JSValue) (lit : jsstring) : bool :=
  match v with
  | JSString s => jsstring_eqb s lit
  | _ => false
  end.

Inductive Exn :=
| Error (message : string)
| TypeError
| RangeError
| SyntaxError.

Inductive Completion (A : Type) :=
| Normal (a : A)
| Throw (e : Exn).
Arguments Normal {A} a.
Arguments Throw {A} e.

(** ** Constants ([src/constants.js]) *)

(** [MAX_CONNECTIONS] is 3 in the [constants.js] that
    [tests/constants.test.js] checks; no property below depends on it. *)
Definition MAX_INPUT_LENGTH : Z := 10000.
Definition MAX_CONNECTIONS : Z := 3.

(** ** [validateInput] *)

Definition includes_nul (s : jsstring) : bool := existsb (Z.eqb 0) s.

Definition validateInput (input : JSValue) : Completion unit :=
  match input with
  | JSString s =>
      if Z.of_nat (length s) =? 0 then Throw (Error "Input cannot be empty")
      else if Z.of_nat (length s) >? MAX_INPUT_LENGTH
           then Throw (Error "Input exceeds maximum length")
      else if includes_nul s
           then Throw (Error "Invalid input: contains null bytes")
      else Normal tt
  | _ => Throw (Error "Input cannot be empty")
  end.

(** ** [isTailscaleIP] *)

(** [String.prototype.split] with a one-code-unit separator. *)
Fixpoint split (sep : Z) (s : jsstring) : list jsstring :=
  match s with
  | [] => [[]]
  | u :: r =>
      if u =? sep then [] :: split sep r
      else match split sep r with
           | p :: ps => (u :: p) :: ps
           | [] => [[u]]
           end
  end.

(** White space and line terminators skipped by [parseInt]. *)
Definition is_whitespace (u : Z) : bool :=
  existsb (Z.eqb u)
    [0x09; 0x0A; 0x0B; 0x0C; 0x0D; 0x20; 0xA0; 0x1680; 0x2028; 0x2029;
     0x202F; 0x205F; 0x3000; 0xFEFF]
  || ((0x2000 <=? u) && (u <=? 0x200A)).

Fixpoint trim_start (s : jsstring) : jsstring :=
  match s with
  | u :: r => if is_whitespace u then trim_start r else s
  | [] => []
  end.

Definition digit_value (u : Z) : option Z :=
  if (48 <=? u) && (u <=? 57) then Some (u - 48) else None.

(** The value of the longest prefix of decimal digits; [None] when the
    prefix is empty. *)
Fixpoint parse_digits (acc : option Z) (s : jsstring) : option Z :=
  match s with
  | u :: r =>
      match digit_value u with
      | Some d => parse_digits (Some (10 * default 0 acc + d)) r
      | None => acc
      end
  | [] => acc
  end.

(** [parseInt(s, 10)]; [None] is NaN.  The result is the mathematical
    integer: the rounding to a double only changes values above 2^53,
    which the comparisons with 100, 64 and 127 below cannot see. *)
Definition parseInt (s : jsstring) : option Z :=
  let s := trim_start s in
  let '(sign, s) :=
    match s with
    | 45 :: r => (-1, r)
    | 43 :: r => (1, r)
    | _ => (1, s)
    end in
  match parse_digits None s with
  | Some n => Some (sign * n)
  | None => None
  end.

Definition nan_test (n : option Z) (p : Z -> bool) : bool :=
  match n with Some z => p z | None => false end.

Definition isTailscaleIP (hostname : jsstring) : bool :=
  let parts := split 46 hostname in
  if negb (Z.of_nat (length parts) =? 4) then false
  else
    let first := parseInt (nth 0 parts []) in
    let second := parseInt (nth 1 parts []) in
    nan_test first (fun f => f =? 100)
    && nan_test second (fun s => s >=? 64)
    && nan_test second (fun s => s <=? 127).

(** ** [isAllowedOrigin] *)

(** The [Origin] header as [isAllowedOrigin] sees it: absent or empty
    (falsy), rejected by [new URL], or parsed with the given [hostname]. *)
Inductive Origin :=
| OriginAbsent
| OriginInvalid
| OriginURL (hostname : jsstring).

Definition isAllowedOrigin (origin : Origin) : bool :=
  match origin with
  | OriginAbsent => true
  | OriginInvalid => false
  | OriginURL hostname =>
      jsstring_eqb hostname (js "localhost")
      || jsstring_eqb hostname (js "127.0.0.1")
      || isTailscaleIP hostname
  end.

(** ** [secureTokenCompare] *)

Definition Buffer := list Z.

Definition is_high_surrogate (u : Z) : bool := (0xD800 <=? u) && (u <=? 0xDBFF).
Definition is_low_surrogate (u : Z) : bool := (0xDC00 <=? u) && (u <=? 0xDFFF).

Definition utf8_encode (cp : Z) : Buffer :=
  if cp <? 0x80 then [cp]
  else if cp <? 0x800 then
    [Z.lor 0xC0 (Z.shiftr cp 6); Z.lor 0x80 (Z.land cp 0x3F)]
  else if cp <? 0x10000 then
    [Z.lor 0xE0 (Z.shiftr cp 12);
     Z.lor 0x80 (Z.land (Z.shiftr cp 6) 0x3F);
     Z.lor 0x80 (Z.land cp 0x3F)]
  else
    [Z.lor 0xF0 (Z.shiftr cp 18);
     Z.lor 0x80 (Z.land (Z.shiftr cp 12) 0x3F);
     Z.lor 0x80 (Z.land (Z.shiftr cp 6) 0x3F);
     Z.lor 0x80 (Z.land cp 0x3F)].

(** U+FFFD, written for a surrogate without its pair. *)
Definition replacement : Buffer := [0xEF; 0xBF; 0xBD].

(** [Buffer.from(string)]: the UTF-8 encoding of the string. *)
Fixpoint Buffer_from (s : jsstring) : Buffer :=
  match s with
  | [] => []
  | u :: rest =>
      if is_high_surrogate u then
        match rest with
        | v :: rest' =>
            if is_low_surrogate v
            then utf8_encode (0x10000 + (u - 0xD800) * 0x400 + (v - 0xDC00))
                 ++ Buffer_from rest'
            else replacement ++ Buffer_from rest
        | [] => replacement
        end
      else if is_low_surrogate u then replacement ++ Buffer_from rest
      else utf8_encode u ++ Buffer_from rest
  end.

(** [Buffer.alloc(size)] followed by [source.copy(target)]. *)
Definition Buffer_alloc (size : Z) : Buffer := repeat 0 (Z.to_nat size).

Definition Buffer_copy (source target : Buffer) : Buffer :=
  firstn (length target) source ++ skipn (length source) target.

Fixpoint bytes_eqb (a b : Buffer) : bool :=
  match a, b with
  | [], [] => true
  | x :: a', y :: b' => (x =? y) && bytes_eqb a' b'
  | _, _ => false
  end.

(** [crypto.timingSafeEqual]: throws on buffers of different byte length. *)
Definition timingSafeEqual (a b : Buffer) : Completion bool :=
  if Z.of_nat (length a) =? Z.of_nat (length b)
  then Normal (bytes_eqb a b)
  else Throw RangeError.

Definition secureTokenCompare (a b : JSValue) : Completion bool :=
  match a, b with
  | JSString a, JSString b =>
      let bufA := Buffer_from a in
      let bufB := Buffer_from b in
      if negb (Z.of_nat (length bufA) =? Z.of_nat (length bufB)) then
        let maxLen := Z.max (Z.of_nat (length bufA)) (Z.of_nat (length bufB)) in
        let paddedA := Buffer_copy bufA (Buffer_alloc maxLen) in
        let paddedB := Buffer_copy bufB (Buffer_alloc maxLen) in
        timingSafeEqual paddedA paddedB
      else timingSafeEqual bufA bufB
  | _, _ => Normal false
  end.

(** ** The calls a connection makes on its collaborators *)

(** A PTY handle returned by [createPTY]: the n-th handle created for the
    connection. *)
Definition Pty := nat.

Inductive Envelope :=
| connected (message : string)
| output (data : jsstring)
| exit (code : Z)
| error (message : string).

Inductive Call :=
| ws_send (e : Envelope)
| ws_close (status : option (Z * string))
| ws_terminate
| ws_ping
| pty_spawn (p : Pty) (cols rows : Z)
| pty_write (p : Pty) (data : JSValue)
| pty_resize (p : Pty) (cols rows : Z)
| pty_kill (p : Pty)
| setTimeout (ms : Z)
| clearTimeout.

(** ** The state of one connection *)

Inductive Timeout := TimeoutHandle.

(** The variables captured by the handlers that [handleConnection]
    registers, followed by what the run time knows of the connection: the
    time left before the pending [setTimeout] callback runs ([None] once it
    ran or was cleared), whether 'close' was emitted, and the number of
    PTY handles created so far. *)
Record Closure := {
  AUTH_TOKEN : option jsstring;
  authenticated : bool;
  authTimeout : option Timeout;
  ptyProcess : option Pty;
  timer : option Z;
  closed : bool;
  spawned : nat;
}.

(** The module variable [activeConnections] with the closure at hand. *)
Record Store := {
  activeConnections : Z;
  closure : Closure;
}.

(** Truthiness of [process.env.TINYTERMINAL_TOKEN]. *)
Definition truthy (t : option jsstring) : bool :=
  match t with
  | Some (_ :: _) => true
  | _ => false
  end.

(** ** A monad for handler bodies: state, recorded calls, exceptions *)

Definition M (A : Type) : Type := Store -> Completion A * Store * list Call.

Definition ret {A} (a : A) : M A := fun st => (Normal a, st, []).

Definition bind {A B} (m : M A) (k : A -> M B) : M B :=
  fun st =>
    match m st with
    | (Normal a, st1, c1) =>
        let '(r, st2, c2) := k a st1 in (r, st2, c1 ++ c2)
    | (Throw e, st1, c1) => (Throw e, st1, c1)
    end.

Notation "x <- m ;; k" := (bind m (fun x => k))
  (at level 100, m at next level, right associativity).
Notation "m ;;; k" := (bind m (fun _ => k))
  (at level 100, right associativity).

Definition throw {A} (e : Exn) : M A := fun st => (Throw e, st, []).

Definition lift {A} (c : Completion A) : M A := fun st => (c, st, []).

Definition try_catch (body : M unit) (handler : Exn -> M unit) : M unit :=
  fun st =>
    match body st with
    | (Normal a, st1, c1) => (Normal a, st1, c1)
    | (Throw e, st1, c1) =>
        let '(r, st2, c2) := handler e st1 in (r, st2, c1 ++ c2)
    end.

Definition call (c : Call) : M unit := fun st => (Normal tt, st, [c]).

Definition read {A} (f : Closure -> A) : M A :=
  fun st => (Normal (f (closure st)), st, []).

Definition update (f : Closure -> Closure) : M unit :=
  fun st => (Normal tt,
             {| activeConnections := activeConnections st;
                closure := f (closure st) |}, []).

Definition set_authenticated (b : bool) (c : Closure) : Closure :=
  {| AUTH_TOKEN := AUTH_TOKEN c; authenticated := b;
     authTimeout := authTimeout c; ptyProcess := ptyProcess c;
     timer := timer c; closed := closed c; spawned := spawned c |}.

Definition set_ptyProcess (p : option Pty) (c : Closure) : Closure :=
  {| AUTH_TOKEN := AUTH_TOKEN c; authenticated := authenticated c;
     authTimeout := authTimeout c; ptyProcess := p;
     timer := timer c; closed := closed c; spawned := spawned c |}.

Definition set_timer (t : option Z) (c : Closure) : Closure :=
  {| AUTH_TOKEN := AUTH_TOKEN c; authenticated := authenticated c;
     authTimeout := authTimeout c; ptyProcess := ptyProcess c;
     timer := t; closed := closed c; spawned := spawned c |}.

Definition set_closed (b : bool) (c : Closure) : Closure :=
  {| AUTH_TOKEN := AUTH_TOKEN c; authenticated := authenticated c;
     authTimeout := authTimeout c; ptyProcess := ptyProcess c;
     timer := timer c; closed := b; spawned := spawned c |}.

Definition set_spawned (n : nat) (c : Closure) : Closure :=
  {| AUTH_TOKEN := AUTH_TOKEN c; authenticated := authenticated c;
     authTimeout := authTimeout c; ptyProcess := ptyProcess c;
     timer := timer c; closed := closed c; spawned := n |}.

(** [clearTimeout(authTimeout)]: the pending callback, if any, is dropped. *)
Definition clear_authTimeout : M unit :=
  call clearTimeout ;;; update (set_timer None).

(** [createPTY(cols, rows)], down to its [pty.spawn] call; the choice of
    the shell and of the environment passed on is not part of the model. *)
Definition createPTY (cols rows : Z) : M Pty :=
  n <- read spawned ;;
  call (pty_spawn n cols rows) ;;;
  update (set_spawned (S n)) ;;;
  ret n.

(** [setupPTY]; the two callbacks it registers are [pty_onData] and
    [pty_onExit] below. *)
Definition setupPTY (cols rows : Z) : M unit :=
  p <- createPTY cols rows ;;
  update (set_ptyProcess (Some p)).

Definition pty_onData (data : jsstring) : M unit :=
  call (ws_send (output data)).

Definition pty_onExit (exitCode : Z) (signal : Z) : M unit :=
  call (ws_send (exit exitCode)).

(** ** Inbound messages *)

(** What the message handler reads from the parsed object: [type], [token]
    and [data] as they are ([JSUndefined] when absent), [cols] and [rows]
    after the [Number(...)] coercion of the resize branch. *)
Record Message := {
  type : JSValue;
  token : JSValue;
  data : JSValue;
  cols : JSNum;
  rows : JSNum;
}.

(** The frame handed to the 'message' handler: text that [JSON.parse]
    rejects, the JSON text [null] (reading [message.type] then throws), or
    any other JSON value. *)
Inductive Frame :=
| Unparseable
| ParsedNull
| Parsed (m : Message).

Definition JSON_parse (frame : Frame) : M Message :=
  match frame with
  | Unparseable => throw SyntaxError
  | ParsedNull => throw TypeError
  | Parsed m => ret m
  end.

Definition valid_dimensions (cols rows : JSNum) : option (Z * Z) :=
  match cols, rows with
  | Int c, Int r =>
      if (c <? 1) || (c >? 500) || (r <? 1) || (r >? 200) then None
      else Some (c, r)
  | _, _ => None
  end.

Definition on_message (frame : Frame) : M unit :=
  try_catch
    (message <- JSON_parse frame ;;
     if strict_eq_string (type message) (js "auth") then
       token_required <- read (fun c => truthy (AUTH_TOKEN c)) ;;
       if negb token_required then ret tt
       else
         already <- read authenticated ;;
         if already then ret tt
         else
           secret <- read (fun c => default [] (AUTH_TOKEN c)) ;;
           let clientToken := token message in
           ok <- lift (secureTokenCompare clientToken (JSString secret)) ;;
           if ok then
             update (set_authenticated true) ;;;
             clear_authTimeout ;;;
             call (ws_send (connected "Authentication successful"))
           else
             call (ws_close (Some (4001, "Unauthorized"%string)))
     else
       is_auth <- read authenticated ;;
       if negb is_auth then ret tt
       else if strict_eq_string (type message) (js "input") then
         lift (validateInput (data message)) ;;;
         p <- read ptyProcess ;;
         match p with
         | Some h => call (pty_write h (data message))
         | None => ret tt
         end
       else if strict_eq_string (type message) (js "resize") then
         match valid_dimensions (cols message) (rows message) with
         | None => throw (Error "Invalid resize dimensions")
         | Some (c, r) =>
             p <- read ptyProcess ;;
             match p with
             | None => setupPTY c r
             | Some h => call (pty_resize h c r)
             end
         end
       else throw (Error "Unknown message type"))
    (fun err => call (ws_send (error "Failed to process request"))).

Definition on_close : M unit :=
  t <- read authTimeout ;;
  match t with
  | Some _ => clear_authTimeout
  | None => ret tt
  end ;;;
  (fun st => (Normal tt,
              {| activeConnections := activeConnections st - 1;
                 closure := closure st |}, [])) ;;;
  p <- read ptyProcess ;;
  match p with
  | Some h => call (pty_kill h) ;;; update (set_ptyProcess None)
  | None => ret tt
  end.

(** The 'error' handler only logs. *)
Definition on_error : M unit := ret tt.

(** The callback given to [setTimeout]. *)
Definition authTimeout_callback : M unit :=
  a <- read authenticated ;;
  if negb a then call (ws_close (Some (4001, "Authentication timeout"%string)))
  else ret tt.

(** ** [handleConnection] *)

Record Req := {
  origin : Origin;
  remoteAddress : jsstring;
}.

(** The body of [handleConnection] up to the registration of the handlers:
    the new value of [activeConnections], the closure of the registered
    handlers ([None] when the connection was turned away) and the calls
    made. [TINYTERMINAL_TOKEN] is the environment variable at that time. *)
Definition handleConnection (TINYTERMINAL_TOKEN : option jsstring)
    (req : Req) (active : Z) : Z * option Closure * list Call :=
  if negb (isAllowedOrigin (origin req)) then (active, None, [ws_close None])
  else if active >=? MAX_CONNECTIONS then (active, None, [ws_close None])
  else
    let active := active + 1 in
    let token_required := truthy TINYTERMINAL_TOKEN in
    (active,
     Some {| AUTH_TOKEN := TINYTERMINAL_TOKEN;
             authenticated := negb token_required;
             authTimeout := if token_required then Some TimeoutHandle else None;
             ptyProcess := None;
             timer := if token_required then Some 5000 else None;
             closed := false;
             spawned := 0 |},
     (if token_required then [setTimeout 5000] else [])
     ++ (if negb token_required
         then [ws_send (connected "PTY initialized")] else [])).

(** ** Events of one connection *)

(** What the run time can deliver to the handlers of a connection.
    [EvPong] is the 'pong' event of the socket, for which [handleConnection]
    registers no listener; [EvElapse ms] lets [ms] milliseconds pass. *)
Inductive Event :=
| EvMessage (frame : Frame)
| EvClose
| EvError
| EvPong
| EvElapse (ms : Z)
| EvPtyData (p : Pty) (data : jsstring)
| EvPtyExit (p : Pty) (exitCode signal : Z).

(** The socket emits nothing once 'close' was emitted; a PTY callback runs
    only for a handle that was created. *)
Definition enabled (c : Closure) (e : Event) : bool :=
  match e with
  | EvMessage _ | EvClose | EvError | EvPong => negb (closed c)
  | EvElapse ms => 0 <=? ms
  | EvPtyData p _ | EvPtyExit p _ _ => (p <? spawned c)%nat
  end.

(** The passing of time: the pending callback runs once its delay is over. *)
Definition elapse (ms : Z) : M unit :=
  t <- read timer ;;
  match t with
  | Some r =>
      if r <=? ms then update (set_timer None) ;;; authTimeout_callback
      else update (set_timer (Some (r - ms)))
  | None => ret tt
  end.

Definition handler (e : Event) : M unit :=
  match e with
  | EvMessage frame => on_message frame
  | EvClose => on_close ;;; update (set_closed true)
  | EvError => on_error
  | EvPong => ret tt
  | EvElapse ms => elapse ms
  | EvPtyData _ d => pty_onData d
  | EvPtyExit _ exitCode signal => pty_onExit exitCode signal
  end.

Definition step (st : Store) (e : Event) : Store * list Call :=
  if enabled (closure st) e
  then let '(_, st', calls) := handler e st in (st', calls)
  else (st, []).

Fixpoint run (st : Store) (evs : list Event) : Store * list Call :=
  match evs with
  | [] => (st, [])
  | e :: evs' =>
      let '(st1, c1) := step st e in
      let '(st2, c2) := run st1 evs' in
      (st2, c1 ++ c2)
  end.

(** A connection from its acceptance on: [None] when [handleConnection]
    turned it away. *)
Definition session (TINYTERMINAL_TOKEN : option jsstring) (req : Req)
    (active : Z) (evs : list Event) : option (Store * list Call) :=
  match handleConnection TINYTERMINAL_TOKEN req active with
  | (active', Some c, calls0) =>
      let '(st, calls) :=
        run {| activeConnections := active'; closure := c |} evs in
      Some (st, calls0 ++ calls)
  | (_, None, _) => None
  end.

(** ** Several connections *)

(** The server: the module variable, the closures of the accepted sockets
    by socket, and the calls made so far with the socket they were made for. *)
Record Server := {
  active : Z;
  sockets : gmap nat Closure;
  calls : list (nat * Call);
}.

Inductive Input :=
| Connect (ws : nat) (TINYTERMINAL_TOKEN : option jsstring) (req : Req)
| Deliver (ws : nat) (e : Event).

Definition tag (ws : nat) (cs : list Call) : list (nat * Call) :=
  map (pair ws) cs.

(** A socket connects once; events reach the handlers of an accepted
    socket only (a refused one has none registered). *)
Definition server_step (s : Server) (i : Input) : Server :=
  match i with
  | Connect ws tok req =>
      match sockets s !! ws with
      | Some _ => s
      | None =>
          let '(n, oc, cs) := handleConnection tok req (active s) in
          {| active := n;
             sockets := match oc with
                        | Some c => <[ws := c]> (sockets s)
                        | None => sockets s
                        end;
             calls := calls s ++ tag ws cs |}
      end
  | Deliver ws e =>
      match sockets s !! ws with
      | Some c =>
          let '(st, cs) :=
            step {| activeConnections := active s; closure := c |} e in
          {| active := activeConnections st;
             sockets := <[ws := closure st]> (sockets s);
             calls := calls s ++ tag ws cs |}
      | None => s
      end
  end.

Definition server_run (s : Server) (inputs : list Input) : Server :=
  fold_left server_step inputs s.

Definition server_start : Server :=
  {| active := 0; sockets := ∅; calls := [] |}.

(** The calls made on socket [ws]. *)
Definition calls_on (ws : nat) (s : Server) : list Call :=
  map snd (filter (fun x => fst x = ws) (calls s)).

(** ** [sanitizeLogMessage] and [log] *)

(** The class [[\r\n\t\x00-\x1F\x7F]] of the regular expression. *)
Definition is_control (u : Z) : bool :=
  (u =? 0x0D) || (u =? 0x0A) || (u =? 0x09)
  || ((0x00 <=? u) && (u <=? 0x1F)) || (u =? 0x7F).

(** [sanitizeLogMessage] on a string ([String(message)] is the message
    itself then): every match of the class is replaced by nothing. *)
Definition sanitizeLogMessage (message : jsstring) : jsstring :=
  List.filter (fun u => negb (is_control u)) message.

(** The line that [log] hands to [console.log], given the text of
    [new Date().toISOString()]. *)
Definition log (timestamp message : jsstring) : jsstring :=
  js "[" ++ timestamp ++ js "] " ++ sanitizeLogMessage message.

(** ** [validatePort], [validateBindAddress] and [startServer] *)

(** A JavaScript number, for the comparisons of [validatePort]: every
    finite double is a rational. *)
Inductive Double :=
| NaN
| Infinity (negative : bool)
| Finite (q : QArith_base.Q).

Definition MIN_PORT : Z := 1024.
Definition MAX_PORT : Z := 65535.
Definition DEFAULT_PORT : Z := 3000.

Definition of_int (k : Z) : Double := Finite (QArith_base.inject_Z k).

Definition Number_isNaN (d : Double) : bool :=
  match d with NaN => true | _ => false end.

(** [d < k] and [d > k] for an integer constant [k]. *)
Definition lt_int (d : Double) (k : Z) : bool :=
  match d with
  | NaN => false
  | Infinity negative => negative
  | Finite q => negb (QArith_base.Qle_bool (QArith_base.inject_Z k) q)
  end.

Definition gt_int (d : Double) (k : Z) : bool :=
  match d with
  | NaN => false
  | Infinity negative => negb negative
  | Finite q => negb (QArith_base.Qle_bool q (QArith_base.inject_Z k))
  end.

(** [validatePort] from [const num = Number(port)] on. *)
Definition validatePort (num : Double) : Completion Double :=
  if Number_isNaN num || lt_int num MIN_PORT || gt_int num MAX_PORT
  then Throw (Error "Invalid PORT: must be between 1024 and 65535")
  else Normal num.

(** The module constant [PORT]: [env_PORT] is [None] when [process.env.PORT]
    is unset or empty and [Number] of its text otherwise. *)
Definition PORT (env_PORT : option Double) : Completion Double :=
  let rawPort := default (of_int DEFAULT_PORT) env_PORT in
  validatePort rawPort.

Definition allowedAddresses : list jsstring :=
  [js "127.0.0.1"; js "0.0.0.0"; js "::1"; js "::"].

Definition validateBindAddress (address : jsstring) : Completion jsstring :=
  if negb (existsb (jsstring_eqb address) allowedAddresses)
  then Throw (Error "Invalid BIND_ADDRESS: must be one of 127.0.0.1, 0.0.0.0, ::1, ::")
  else Normal address.

(** [startServer], given the value of [PORT]: the arguments of
    [httpServer.listen], unless the bind address is refused. *)
Definition startServer (env_BIND_ADDRESS : option jsstring) (port : Double)
    : Completion (Double * jsstring) :=
  let rawBindAddress :=
    if truthy env_BIND_ADDRESS then default [] env_BIND_ADDRESS
    else js "127.0.0.1" in
  match validateBindAddress rawBindAddress with
  | Throw e => Throw e
  | Normal BIND_ADDRESS => Normal (port, BIND_ADDRESS)
  end.

(** ** [createHttpServer] *)

(** The three files that the request handler names, each
    [path.join(__dirname, '../public/<name>')]. *)
Inductive PublicFile := index_html | style_css | client_js.

(** [path.extname] of the path of a file. *)
Definition extname (f : PublicFile) : string :=
  match f with
  | index_html => ".html"
  | style_css => ".css"
  | client_js => ".js"
  end.

(** The outcome of [fs.readFile(filePath, 'utf-8')]: the content, the
    rejection with code 'ENOENT', or another rejection with its message. *)
Inductive ReadResult :=
| Content (content : jsstring)
| ENOENT
| Rejected (message : jsstring).

Record Response := {
  status : Z;
  headers : list (string * string);
  body : string + jsstring;
}.

(** A response with the files read and the lines logged on the way. *)
Record Served := {
  response : Response;
  reads : list PublicFile;
  logged : list jsstring;
}.

Definition route (url : jsstring) : option PublicFile :=
  if jsstring_eqb url (js "/") || jsstring_eqb url (js "/index.html")
  then Some index_html
  else if jsstring_eqb url (js "/style.css") then Some style_css
  else if jsstring_eqb url (js "/client.js") then Some client_js
  else None.

Definition contentType (ext : string) : string :=
  if String.eqb ext ".html" then "text/html"
  else if String.eqb ext ".css" then "text/css"
  else if String.eqb ext ".js" then "application/javascript"
  else "text/plain".

Definition CSP : string :=
  "default-src 'self'; script-src 'self' https://cdn.jsdelivr.net; style-src 'self' 'unsafe-inline' https://cdn.jsdelivr.net; connect-src 'self' ws: wss:;".

Section RequestHandler.

(** The result of [resolvedPath.startsWith(publicDir)] for a file and
    the file system as the handler finds it. *)
Variable within_public : PublicFile -> bool.
Variable readFile : PublicFile -> ReadResult.

(** The callback of [http.createServer] on a request with the given
    [req.url]. *)
Definition on_request (url : jsstring) : Served :=
  match route url with
  | None =>
      {| response :=
           {| status := 404;
              headers := [("Content-Type", "text/plain");
                          ("X-Content-Type-Options", "nosniff");
                          ("X-Frame-Options", "DENY");
                          ("Referrer-Policy", "no-referrer");
                          ("Permissions-Policy",
                           "camera=(), microphone=(), geolocation=()")];
              body := inl "Not Found" |};
         reads := []; logged := [] |}
  | Some filePath =>
      if negb (within_public filePath) then
        {| response :=
             {| status := 403;
                headers := [("Content-Type", "text/plain");
                            ("X-Content-Type-Options", "nosniff")];
                body := inl "Forbidden" |};
           reads := []; logged := [] |}
      else
        match readFile filePath with
        | Content content =>
            let ext := extname filePath in
            {| response :=
                 {| status := 200;
                    headers :=
                      [("Content-Type", contentType ext);
                       ("X-Content-Type-Options", "nosniff");
                       ("X-Frame-Options", "DENY");
                       ("Referrer-Policy", "no-referrer");
                       ("Permissions-Policy",
                        "camera=(), microphone=(), geolocation=()")]
                      ++ (if String.eqb ext ".html"
                          then [("Content-Security-Policy", CSP)] else []);
                    body := inr content |};
               reads := [filePath]; logged := [] |}
        | ENOENT =>
            {| response :=
                 {| status := 404;
                    headers := [("Content-Type", "text/plain");
                                ("X-Content-Type-Options", "nosniff");
                                ("Referrer-Policy", "no-referrer");
                                ("Permissions-Policy",
                                 "camera=(), microphone=(), geolocation=()")];
                    body := inl "Not Found" |};
               reads := [filePath]; logged := [] |}
        | Rejected message =>
            {| response :=
                 {| status := 500;
                    headers := [("Content-Type", "text/plain");
                                ("X-Content-Type-Options", "nosniff")];
                    body := inl "Internal Server Error" |};
               reads := [filePath];
               logged := [js "Server error: " ++ message] |}
        end
  end.

End RequestHandler.

(** [headers[name]] of a response. *)
Fixpoint header (name : string) (hs : list (string * string)) : option string :=
  match hs with
  | [] => None
  | (k, v) :: hs' => if String.eqb k name then Some v else header name hs'
  end.

(** ** [createPTY] with its environment *)

Module Spawn.

Definition SAFE_ENV_KEYS : list string :=
  ["HOME"; "USER"; "SHELL"; "TERM"; "PATH"; "LANG"; "LC_ALL"; "LC_CTYPE";
   "COLORTERM"]%string.

(** The options handed to [pty.spawn] after the shell. *)
Record Options := {
  name : string;
  cols : Z;
  rows : Z;
  cwd : option jsstring;
  env : gmap string jsstring;
}.

(** [process.env[key]] when it is truthy. *)
Definition truthy_var (process_env : gmap string jsstring) (key : string)
    : option jsstring :=
  match process_env !! key with
  | Some (u :: v) => Some (u :: v)
  | _ => None
  end.

(** The loop over [SAFE_ENV_KEYS]. *)
Fixpoint copy_safe (process_env : gmap string jsstring) (keys : list string)
    (safeEnv : gmap string jsstring) : gmap string jsstring :=
  match keys with
  | [] => safeEnv
  | key :: keys' =>
      match truthy_var process_env key with
      | Some v => copy_safe process_env keys' (<[key := v]> safeEnv)
      | None => copy_safe process_env keys' safeEnv
      end
  end.

(** [createPTY(cols, rows, shell)]: the two arguments of [pty.spawn] that
    carry data; an absent argument is [None] and takes its default. *)
Definition createPTY (process_env : gmap string jsstring)
    (cols rows : option Z) (shell : option jsstring) : jsstring * Options :=
  let cols := default 80 cols in
  let rows := default 24 rows in
  let selectedShell :=
    if truthy shell then default [] shell
    else match truthy_var process_env "SHELL" with
         | Some s => s
         | None => js "/bin/bash"
         end in
  let safeEnv := copy_safe process_env SAFE_ENV_KEYS ∅ in
  let safeEnv := <["TERM"%string := js "xterm-256color"]> safeEnv in
  (selectedShell,
   {| name := "xterm-256color"; cols := cols; rows := rows;
      cwd := process_env !! "HOME"%string; env := safeEnv |}).

End Spawn.

(** * Vocabulary of the statements *)

(** Invariant of the closure of an accepted connection: a PTY handle is
    held only by an open, authenticated connection and is the only one ever
    created for it; no handle was created for an open connection that
    holds none. *)
Definition wf (c : Closure) : Prop :=
  match ptyProcess c with
  | Some h =>
      h = 0%nat /\ spawned c = 1%nat /\ closed c = false
      /\ authenticated c = true
  | None => if closed c then (spawned c <= 1)%nat else spawned c = 0%nat
  end.

Definition is_spawn (c : Call) : bool :=
  match c with pty_spawn _ _ _ => true | _ => false end.

Definition count_spawns (cs : list Call) : nat :=
  length (filter (fun c => is_spawn c = true) cs).

(** Until a connection is authenticated no PTY was created for it. *)
Definition no_pty_yet (c : Closure) : Prop :=
  authenticated c = false -> spawned c = 0%nat /\ ptyProcess c = None.

(** The envelopes a client sends. *)
Definition msg_auth (t : JSValue) : Message :=
  {| type := JSString (js "auth"); token := t; data := JSUndefined;
     cols := NonInt; rows := NonInt |}.

Definition msg_input (d : JSValue) : Message :=
  {| type := JSString (js "input"); token := JSUndefined; data := d;
     cols := NonInt; rows := NonInt |}.

Definition msg_resize (c r : JSNum) : Message :=
  {| type := JSString (js "resize"); token := JSUndefined;
     data := JSUndefined; cols := c; rows := r |}.

Definition browser : Req :=
  {| origin := OriginURL (js "localhost");
     remoteAddress := js "100.64.0.1" |}.

(** The store right after [handleConnection] accepted the first
    connection of a server that requires the token "secret". *)
Definition awaiting_auth : Store :=
  {| activeConnections := 1;
     closure := {| AUTH_TOKEN := Some (js "secret");
                   authenticated := false;
                   authTimeout := Some TimeoutHandle;
                   ptyProcess := None;
                   timer := Some 5000;
                   closed := false;
                   spawned := 0 |} |}.

(** The same connection once the token was presented. *)
Definition authenticated_idle : Store :=
  {| activeConnections := 1;
     closure := {| AUTH_TOKEN := Some (js "secret");
                   authenticated := true;
                   authTimeout := Some TimeoutHandle;
                   ptyProcess := None;
                   timer := None;
                   closed := false;
                   spawned := 0 |} |}.

(** The time that a list of events lets pass. *)
Definition elapsed_by (e : Event) : Z :=
  match e with
  | EvElapse ms => if 0 <=? ms then ms else 0
  | _ => 0
  end.

Fixpoint elapsed (evs : list Event) : Z :=
  match evs with
  | [] => 0
  | e :: evs' => elapsed_by e + elapsed evs'
  end.

Definition timeout_close : Call :=
  ws_close (Some (4001, "Authentication timeout"%string)).

(** The pending callback [before] and [after] a lapse of [d] ms: it ran,
    with its call among [cs], when its delay was over, and is due that much
    sooner otherwise. *)
Definition timer_after (before : option Z) (d : Z) (after : option Z)
    (cs : list Call) : Prop :=
  match before with
  | Some r =>
      if r <=? d then after = None /\ In timeout_close cs
      else after = Some (r - d)
  | None => after = None
  end.

Definition timer_positive (c : Closure) : Prop :=
  match timer c with Some r => 0 < r | None => True end.

(** The connection once the token was accepted. *)
Definition accept_token (st : Store) : Store :=
  {| activeConnections := activeConnections st;
     closure := set_timer None (set_authenticated true (closure st)) |}.

(** The connection once the pending callback ran. *)
Definition timer_ran (st : Store) : Store :=
  {| activeConnections := activeConnections st;
     closure := set_timer None (closure st) |}.

(** The connection once its PTY was created. *)
Definition with_pty (st : Store) : Store :=
  {| activeConnections := activeConnections st;
     closure := set_ptyProcess (Some 0%nat) (set_spawned 1 (closure st)) |}.

Fixpoint has_close (evs : list Event) : bool :=
  match evs with
  | [] => false
  | EvClose :: _ => true
  | _ :: evs' => has_close evs'
  end.

Definition is_probe (c : Call) : bool :=
  match c with ws_ping | ws_terminate => true | _ => false end.

(** The connection of a server without token, idle. *)
Definition open_idle : Store :=
  {| activeConnections := 1;
     closure := {| AUTH_TOKEN := None;
                   authenticated := true;
                   authTimeout := None;
                   ptyProcess := None;
                   timer := None;
                   closed := false;
                   spawned := 0 |} |}.

(** The closure of an idle connection of a server without token. *)
Definition first_socket : Closure := closure open_idle.

(** The decimal text of an octet and the dotted quad of four octets. *)
Definition octet_text (n : Z) : jsstring :=
  if n <? 10 then [48 + n]
  else if n <? 100 then [48 + n / 10; 48 + n mod 10]
  else [48 + n / 100; 48 + n / 10 mod 10; 48 + n mod 10].

Definition dotted_quad (a b c d : Z) : jsstring :=
  octet_text a ++ 46 :: octet_text b ++ 46 :: octet_text c ++ 46 :: octet_text d.

Definition octets : list Z := map Z.of_nat (seq 0 256).

(** The start of the program: the module is loaded, which computes [PORT],
    and [startServer] runs. *)
Definition start (env_PORT : option Double)
    (env_BIND_ADDRESS : option jsstring) : Completion (Double * jsstring) :=
  match PORT env_PORT with
  | Throw e => Throw e
  | Normal port => startServer env_BIND_ADDRESS port
  end.

(** The URLs that the request handler serves. *)
Definition routes : list jsstring :=
  [js "/"; js "/index.html"; js "/style.css"; js "/client.js"].

(** An environment of the server with a variable outside the whitelist, a
    terminal type of its own and an empty variable. *)
Definition host_env : gmap string jsstring :=
  <["EDITOR"%string := js "vi"]>
    (<["PATH"%string := js "/usr/bin"]>
       (<["TERM"%string := js "dumb"]> (<["LANG"%string := []]> ∅))).

(** A string of UTF-16 code units in which every surrogate has its pair. *)
Fixpoint well_formed (s : jsstring) : bool :=
  match s with
  | [] => true
  | u :: rest =>
      (0 <=? u) && (u <? 0x10000)
      && (if is_high_surrogate u then
            match rest with
            | v :: rest' => is_low_surrogate v && well_formed rest'
            | [] => false
            end
          else negb (is_low_surrogate u) && well_formed rest)
  end.

(** The code points that [Buffer.from] encodes for a string. *)
Fixpoint scalars (s : jsstring) : list Z :=
  match s with
  | [] => []
  | u :: rest =>
      if is_high_surrogate u then
        match rest with
        | v :: rest' =>
            if is_low_surrogate v
            then (0x10000 + (u - 0xD800) * 0x400 + (v - 0xDC00)) :: scalars rest'
            else 0xFFFD :: scalars rest
        | [] => [0xFFFD]
        end
      else if is_low_surrogate u then 0xFFFD :: scalars rest
      else u :: scalars rest
  end.

(** The number of occurrences of a code unit in a string. *)
Definition count_unit (c : Z) (s : jsstring) : nat :=
  length (List.filter (Z.eqb c) s).

(** The calls that can be made for a connection that is not authenticated:
    timer calls, the generic error envelope and [ws.close]. *)
Definition pre_auth_call (c : Call) : bool :=
  match c with
  | setTimeout _ | clearTimeout | ws_close _ | ws_send (error _) => true
  | _ => false
  end.

Definition is_connected (c : Call) : bool :=
  match c with ws_send (connected _) => true | _ => false end.

Definition is_timeout_close (c : Call) : bool :=
  match c with
  | ws_close (Some (4001, reason)) =>
      String.eqb reason "Authentication timeout"
  | _ => false
  end.

Definition is_kill (c : Call) : bool :=
  match c with pty_kill _ => true | _ => false end.

(** A call on a PTY handle or to [pty.spawn]. *)
Definition pty_op (c : Call) : bool :=
  match c with
  | pty_spawn _ _ _ | pty_write _ _ | pty_resize _ _ _ | pty_kill _ => true
  | _ => false
  end.

Definition count (p : Call -> bool) (cs : list Call) : nat :=
  length (List.filter p cs).

(** No call on a PTY follows a [kill]. *)
Fixpoint quiet_after_kill (cs : list Call) : bool :=
  match cs with
  | [] => true
  | c :: cs' =>
      if is_kill c then forallb (fun c => negb (pty_op c)) cs'
      else quiet_after_kill cs'
  end.

(** The frames that the message handler answers with the error envelope
    on an authenticated connection. *)
Definition rejected_frame (frame : Frame) : bool :=
  match frame with
  | Unparseable | ParsedNull => true
  | Parsed m =>
      if strict_eq_string (type m) (js "auth") then false
      else if strict_eq_string (type m) (js "input") then
        match validateInput (data m) with Normal _ => false | Throw _ => true end
      else if strict_eq_string (type m) (js "resize") then
        match valid_dimensions (cols m) (rows m) with
        | Some _ => false
        | None => true
        end
      else true
  end.

Definition pending (c : Closure) : nat :=
  match timer c with Some _ => 1 | None => 0 end.

(** The accepted connections on which 'close' was not emitted yet. *)
Definition open_count (s : Server) : nat :=
  size (filter (fun p : nat * Closure => closed (snd p) = false) (sockets s)).

(** The pending callback belongs to an open, unauthenticated connection,
    and the 'close' handler knows its handle. *)
Definition timer_owned (c : Closure) : Prop :=
  timer c <> None ->
  authenticated c = false /\ closed c = false /\ authTimeout c <> None.

(** * Properties *)

(** ** The pure functions on sample inputs *)

Example split_dots : split 46 (js "100.64.0") = [js "100"; js "64"; js "0"].
Proof. reflexivity. Qed.

Example parseInt_lenient : parseInt (js " 64xyz") = Some 64.
Proof. reflexivity. Qed.

Example isTailscaleIP_lower : isTailscaleIP (js "100.64.0.0") = true.
Proof. reflexivity. Qed.

Example compare_tests :
  secureTokenCompare (JSString (js "test-token")) (JSString (js "test-token")) = Normal true
  /\ secureTokenCompare (JSString (js "short")) (JSString (js "longer-token")) = Normal false
  /\ secureTokenCompare (JSString []) (JSString []) = Normal true.
Proof. repeat split; reflexivity. Qed.

(** ** Token comparison *)

Lemma bytes_eqb_eq (a b : Buffer) : bytes_eqb a b = true <-> a = b.
Proof.
  revert b. induction a as [|x a IH]; intros [|y b]; simpl; split;
    try congruence; try reflexivity.
  - intros H. apply andb_true_iff in H as [Hx Hr].
    apply Z.eqb_eq in Hx. apply IH in Hr. congruence.
  - intros H. injection H as -> ->. rewrite Z.eqb_refl. simpl. now apply IH.
Qed.

Lemma bytes_eqb_refl (a : Buffer) : bytes_eqb a a = true.
Proof. now apply bytes_eqb_eq. Qed.

Lemma jsstring_eqb_eq (a b : jsstring) : jsstring_eqb a b = true <-> a = b.
Proof. exact (bytes_eqb_eq a b). Qed.

Lemma skipn_repeat_zero (k n : nat) :
  skipn k (repeat 0 n) = repeat 0 (n - k).
Proof.
  revert k. induction n as [|n IH]; intros [|k]; simpl; try reflexivity.
  apply IH.
Qed.

Lemma Buffer_copy_alloc (buf : Buffer) (n : nat) :
  (length buf <= n)%nat ->
  Buffer_copy buf (Buffer_alloc (Z.of_nat n)) = buf ++ repeat 0 (n - length buf).
Proof.
  intros Hle. unfold Buffer_copy, Buffer_alloc.
  rewrite Nat2Z.id, repeat_length, skipn_repeat_zero.
  now rewrite firstn_all2 by exact Hle.
Qed.

(** What [secureTokenCompare] computes on two strings: equality of the two
    encodings once the shorter one is filled up with zero bytes. *)
Lemma secureTokenCompare_padded (a b : jsstring) :
  let bufA := Buffer_from a in
  let bufB := Buffer_from b in
  let n := Nat.max (length bufA) (length bufB) in
  secureTokenCompare (JSString a) (JSString b)
  = Normal (bytes_eqb (bufA ++ repeat 0 (n - length bufA))
                      (bufB ++ repeat 0 (n - length bufB))).
Proof.
  intros bufA bufB n. unfold secureTokenCompare. fold bufA bufB.
  destruct (Z.of_nat (length bufA) =? Z.of_nat (length bufB)) eqn:Hlen; simpl.
  - apply Z.eqb_eq in Hlen. apply Nat2Z.inj in Hlen.
    unfold timingSafeEqual. rewrite Hlen, Z.eqb_refl.
    subst n. rewrite Hlen, Nat.max_id, Nat.sub_diag. simpl.
    now rewrite !app_nil_r.
  - rewrite <- Nat2Z.inj_max. fold n.
    rewrite !Buffer_copy_alloc by (subst n; lia).
    unfold timingSafeEqual.
    rewrite !length_app, !repeat_length.
    replace (length bufA + (n - length bufA))%nat with n by (subst n; lia).
    replace (length bufB + (n - length bufB))%nat with n by (subst n; lia).
    now rewrite Z.eqb_refl.
Qed.

(** The comparison never throws: [timingSafeEqual] always receives two
    buffers of one length. *)
Lemma secureTokenCompare_returns (a b : JSValue) :
  exists r, secureTokenCompare a b = Normal r.
Proof.
  destruct a as [| | | |a|]; try (exists false; reflexivity).
  destruct b as [| | | |b|]; try (exists false; reflexivity).
  eexists. apply secureTokenCompare_padded.
Qed.

Lemma secureTokenCompare_refl (a : jsstring) :
  secureTokenCompare (JSString a) (JSString a) = Normal true.
Proof. rewrite secureTokenCompare_padded. now rewrite bytes_eqb_refl. Qed.

(** Two strings compare equal exactly when one encoding is the other
    followed by zero bytes only. *)
Lemma secureTokenCompare_true_iff (a b : jsstring) :
  secureTokenCompare (JSString a) (JSString b) = Normal true
  <-> (exists n, Buffer_from a = Buffer_from b ++ repeat 0 n)
      \/ (exists n, Buffer_from b = Buffer_from a ++ repeat 0 n).
Proof.
  rewrite secureTokenCompare_padded.
  set (bufA := Buffer_from a). set (bufB := Buffer_from b).
  split.
  - intros H. injection H as H. apply bytes_eqb_eq in H.
    destruct (Nat.le_ge_cases (length bufA) (length bufB)) as [Hle|Hle].
    + right. rewrite Nat.max_r in H by exact Hle.
      rewrite Nat.sub_diag in H. simpl in H. rewrite app_nil_r in H. eauto.
    + left. rewrite Nat.max_l in H by exact Hle.
      rewrite Nat.sub_diag in H. simpl in H. rewrite app_nil_r in H. eauto.
  - intros [[n H]|[n H]]; f_equal; apply bytes_eqb_eq; rewrite H;
      rewrite length_app, repeat_length.
    + rewrite Nat.max_l by lia.
      replace (length bufB + n - (length bufB + n))%nat with 0%nat by lia.
      replace (length bufB + n - length bufB)%nat with n by lia.
      simpl. now rewrite app_nil_r.
    + rewrite Nat.max_r by lia.
      replace (length bufA + n - (length bufA + n))%nat with 0%nat by lia.
      replace (length bufA + n - length bufA)%nat with n by lia.
      simpl. now rewrite app_nil_r.
Qed.

(** On encodings of one length the comparison is equality of the bytes. *)
Lemma secureTokenCompare_same_length (a b : jsstring) :
  length (Buffer_from a) = length (Buffer_from b) ->
  secureTokenCompare (JSString a) (JSString b) = Normal true
  <-> Buffer_from a = Buffer_from b.
Proof.
  intros Hlen. rewrite secureTokenCompare_true_iff. split.
  - intros [[n H]|[n H]]; pose proof (f_equal (@length Z) H) as L;
      rewrite length_app, repeat_length in L;
      assert (n = 0%nat) as -> by lia; simpl in H;
      rewrite app_nil_r in H; congruence.
  - intros H. left. exists 0%nat. simpl. now rewrite app_nil_r.
Qed.

Lemma Buffer_from_app (a b : jsstring) :
  match b with v :: _ => is_low_surrogate v = false | [] => True end ->
  Buffer_from (a ++ b) = Buffer_from a ++ Buffer_from b.
Proof.
  intros Hb. remember (length a) as n eqn:Hn. revert a Hn.
  induction n as [n IH] using lt_wf_ind. intros a Hn.
  destruct a as [|u rest]; [reflexivity|].
  change ((u :: rest) ++ b) with (u :: (rest ++ b)).
  cbn [Buffer_from].
  destruct (is_high_surrogate u).
  - destruct rest as [|v rest'].
    + destruct b as [|w b']; cbn [app].
      * rewrite app_nil_r. reflexivity.
      * rewrite Hb. reflexivity.
    + change ((v :: rest') ++ b) with (v :: (rest' ++ b)). cbv iota.
      destruct (is_low_surrogate v).
      * rewrite (IH (length rest')) by (simpl in Hn; lia || reflexivity).
        now rewrite app_assoc.
      * change (v :: (rest' ++ b)) with ((v :: rest') ++ b).
        rewrite (IH (length (v :: rest'))) by (simpl in *; lia || reflexivity).
        now rewrite app_assoc.
  - destruct (is_low_surrogate u);
      rewrite (IH (length rest)) by (simpl in Hn; lia || reflexivity);
      now rewrite app_assoc.
Qed.

Lemma Buffer_from_zeros (n : nat) : Buffer_from (repeat 0 n) = repeat 0 n.
Proof.
  induction n as [|n IH]; [reflexivity|].
  change (repeat 0 (S n)) with (0 :: repeat 0 n).
  cbn [Buffer_from]. change (is_high_surrogate 0) with false.
  change (is_low_surrogate 0) with false. cbv iota.
  now rewrite IH.
Qed.

(** Any token followed by NUL characters compares equal to the token. *)
Lemma secureTokenCompare_nul_suffix (a : jsstring) (n : nat) :
  secureTokenCompare (JSString (a ++ repeat 0 n)) (JSString a) = Normal true.
Proof.
  apply secureTokenCompare_true_iff. left. exists n.
  rewrite Buffer_from_app.
  - now rewrite Buffer_from_zeros.
  - destruct n; simpl; [exact I | reflexivity].
Qed.

(** C1 (defect). The claim wants [false] for every pair of different
    tokens; [secureTokenCompare] answers [true] for the secret followed by
    a NUL character, a token of a different length: the zero bytes that pad
    the shorter buffer equal the trailing NUL of the longer one. *)
Theorem secureTokenCompare_accepts_nul_suffix :
  secureTokenCompare (JSString (js "secret" ++ [0])) (JSString (js "secret"))
  = Normal true
  /\ jsstring_eqb (js "secret" ++ [0]) (js "secret") = false
  /\ length (js "secret" ++ [0]) = 7%nat
  /\ length (js "secret") = 6%nat.
Proof. repeat split. Qed.

(** ** The state machine of one connection *)

Arguments js : simpl never.
Arguments strict_eq_string : simpl never.
Arguments secureTokenCompare : simpl never.
Arguments validateInput : simpl never.
Arguments valid_dimensions : simpl never.
Arguments truthy : simpl never.

Ltac unfold_handlers :=
  unfold step, handler, on_message, on_close, on_error, elapse,
    authTimeout_callback, pty_onData, pty_onExit, setupPTY, createPTY,
    clear_authTimeout, JSON_parse, try_catch, bind, ret, throw, lift, call,
    read, update in *.

Ltac case_step :=
  match goal with
  | |- context [match ?x with _ => _ end] =>
      lazymatch x with
      | context [match _ with _ => _ end] => fail
      | _ => destruct x eqn:?
      end
  end.

Ltac case_all := repeat (cbn in *; try case_step).

Ltac destruct_bools :=
  repeat match goal with b : bool |- _ => destruct b end.

Ltac leb_to_order :=
  repeat match goal with
         | H : (_ <=? _) = true |- _ => apply Z.leb_le in H
         | H : (_ <=? _) = false |- _ => apply Z.leb_gt in H
         end.

Lemma handleConnection_wf tok req n n' c cs :
  handleConnection tok req n = (n', Some c, cs) -> wf c.
Proof.
  unfold handleConnection. intros H.
  destruct (negb (isAllowedOrigin (origin req))); [discriminate|].
  destruct (n >=? MAX_CONNECTIONS); [discriminate|].
  injection H as _ <- _. reflexivity.
Qed.

Lemma step_wf (st : Store) (e : Event) :
  wf (closure st) ->
  wf (closure (fst (step st e)))
  /\ (spawned (closure (fst (step st e)))
      = spawned (closure st) + count_spawns (snd (step st e)))%nat.
Proof.
  destruct st as [n [tok au ato pp tm cl sp]]. unfold wf. cbn.
  intros Hwf. destruct e; unfold_handlers; unfold count_spawns.
  all: case_all; subst; destruct_bools; cbn in *;
    intuition (try congruence; try lia).
Qed.

Lemma count_spawns_app (a b : list Call) :
  count_spawns (a ++ b) = (count_spawns a + count_spawns b)%nat.
Proof. unfold count_spawns. now rewrite filter_app, length_app. Qed.

Lemma run_wf (st : Store) (evs : list Event) :
  wf (closure st) ->
  wf (closure (fst (run st evs)))
  /\ (spawned (closure (fst (run st evs)))
      = spawned (closure st) + count_spawns (snd (run st evs)))%nat.
Proof.
  revert st. induction evs as [|e evs IH]; intros st Hwf; cbn [run].
  - split; [exact Hwf | cbn; lia].
  - destruct (step_wf st e Hwf) as [Hwf1 Hsp1].
    destruct (step st e) as [st1 c1]. cbn [fst snd] in *.
    destruct (IH st1 Hwf1) as [Hwf2 Hsp2].
    destruct (run st1 evs) as [st2 c2]. cbn [fst snd] in *.
    split; [exact Hwf2 | rewrite count_spawns_app; lia].
Qed.

Lemma wf_spawned_le (c : Closure) : wf c -> (spawned c <= 1)%nat.
Proof.
  unfold wf. destruct (ptyProcess c); [intuition lia|].
  destruct (closed c); lia.
Qed.

Example awaiting_auth_reached :
  session (Some (js "secret")) browser 0 [] = Some (awaiting_auth, [setTimeout 5000]).
Proof. reflexivity. Qed.

Example authenticated_idle_reached :
  session (Some (js "secret")) browser 0
    [EvMessage (Parsed (msg_auth (JSString (js "secret"))))]
  = Some (authenticated_idle,
          [setTimeout 5000; clearTimeout;
           ws_send (connected "Authentication successful")]).
Proof. reflexivity. Qed.

(** The message types exclude one another. *)
Lemma input_is_input (m : Message) :
  strict_eq_string (type m) (js "input") = true ->
  strict_eq_string (type m) (js "auth") = false.
Proof.
  unfold strict_eq_string. destruct (type m); try discriminate.
  intros H. apply jsstring_eqb_eq in H. now subst.
Qed.

Lemma resize_is_resize (m : Message) :
  strict_eq_string (type m) (js "resize") = true ->
  strict_eq_string (type m) (js "auth") = false
  /\ strict_eq_string (type m) (js "input") = false.
Proof.
  unfold strict_eq_string. destruct (type m); try discriminate.
  intros H. apply jsstring_eqb_eq in H. now subst.
Qed.

(** ** The authentication gate *)

(** C2. While a connection is not authenticated, a message whose type is
    not 'auth' (input, resize or anything else) changes nothing and causes
    no call at all: nothing is sent, no PTY is created. *)
Theorem unauthenticated_message_dropped (st : Store) (m : Message) :
  truthy (AUTH_TOKEN (closure st)) = true ->
  authenticated (closure st) = false ->
  strict_eq_string (type m) (js "auth") = false ->
  step st (EvMessage (Parsed m)) = (st, []).
Proof.
  intros _ Hau Hty. destruct st as [n [tok au ato pp tm cl sp]].
  cbn in Hau. subst au. unfold_handlers. cbn.
  destruct cl; cbn; [reflexivity|]. rewrite Hty. reflexivity.
Qed.

Lemma unauthenticated_message_dropped_witness :
  step awaiting_auth (EvMessage (Parsed (msg_resize (Int 80) (Int 24))))
  = (awaiting_auth, [])
  /\ step awaiting_auth (EvMessage (Parsed (msg_input (JSString (js "ls")))))
     = (awaiting_auth, []).
Proof.
  split; apply unauthenticated_message_dropped; reflexivity.
Defined.

(** C9. [secureTokenCompare] answers [false] as soon as one argument is
    not a string, whatever the other one is and also for twice the same
    value; an 'auth' message whose token is absent or not a string
    therefore never authenticates: it leaves the connection as it was. *)
Theorem non_string_token_rejected (a b : JSValue) (st : Store) (m : Message) :
  typeof a <> TString ->
  strict_eq_string (type m) (js "auth") = true ->
  token m = a ->
  secureTokenCompare a b = Normal false
  /\ secureTokenCompare b a = Normal false
  /\ secureTokenCompare a a = Normal false
  /\ fst (step st (EvMessage (Parsed m))) = st
  /\ (authenticated (closure st) = false ->
      authenticated (closure (fst (step st (EvMessage (Parsed m))))) = false).
Proof.
  intros Ha Hty Htok.
  assert (Hl : forall x, secureTokenCompare a x = Normal false)
    by (intros x; destruct a; try reflexivity; now destruct Ha).
  assert (Hr : forall x, secureTokenCompare x a = Normal false)
    by (intros x; destruct a, x; try reflexivity; now destruct Ha).
  assert (Hst : fst (step st (EvMessage (Parsed m))) = st).
  { destruct st as [n [tok au ato pp tm cl sp]]. unfold_handlers. cbn.
    destruct cl; cbn; [reflexivity|]. rewrite Hty. cbn.
    destruct (truthy tok); cbn; [|reflexivity].
    destruct au; cbn; [reflexivity|].
    rewrite Htok, Hl. reflexivity. }
  repeat split; auto. now rewrite Hst.
Qed.

Lemma non_string_token_rejected_witness :
  secureTokenCompare JSNull JSNull = Normal false
  /\ fst (step awaiting_auth (EvMessage (Parsed (msg_auth JSNull))))
     = awaiting_auth.
Proof.
  pose proof (non_string_token_rejected JSNull JSNull awaiting_auth
                (msg_auth JSNull)) as H.
  destruct H as (_ & _ & H1 & H2 & _);
    [discriminate | reflexivity | reflexivity |].
  split; assumption.
Defined.

(** C7 as stated fails: an 'input' message that [validateInput] rejects is
    answered with the error envelope although no PTY exists. *)
Lemma empty_input_answered_with_error :
  authenticated (closure authenticated_idle) = true
  /\ ptyProcess (closure authenticated_idle) = None
  /\ step authenticated_idle (EvMessage (Parsed (msg_input (JSString []))))
     = (authenticated_idle, [ws_send (error "Failed to process request")]).
Proof. repeat split. Qed.

(** C7 (amended). On an authenticated connection without a PTY no 'input'
    message reaches a subprocess; one that passes [validateInput] is
    dropped without any call, one that fails it is answered with the
    generic error envelope only. *)
Theorem input_without_pty (st : Store) (m : Message) :
  closed (closure st) = false ->
  authenticated (closure st) = true ->
  ptyProcess (closure st) = None ->
  strict_eq_string (type m) (js "input") = true ->
  step st (EvMessage (Parsed m))
  = (st, match validateInput (data m) with
         | Normal _ => []
         | Throw _ => [ws_send (error "Failed to process request")]
         end).
Proof.
  intros Hcl Hau Hpp Hty. destruct st as [n [tok au ato pp tm cl sp]].
  cbn in Hcl, Hau, Hpp. subst. unfold_handlers. cbn.
  rewrite (input_is_input m Hty). cbn. rewrite Hty. cbn.
  destruct (validateInput (data m)) as [[]|]; reflexivity.
Qed.

Lemma input_without_pty_witness :
  step authenticated_idle (EvMessage (Parsed (msg_input (JSString (js "ls")))))
  = (authenticated_idle, []).
Proof.
  apply (input_without_pty authenticated_idle
           (msg_input (JSString (js "ls")))); reflexivity.
Defined.

(** ** Authentication *)

Lemma elapsed_nonneg (evs : list Event) : 0 <= elapsed evs.
Proof.
  induction evs as [|e evs IH]; cbn; [lia|].
  assert (0 <= elapsed_by e); [|lia].
  destruct e; cbn; try lia. destruct (0 <=? ms) eqn:H; lia.
Qed.

Lemma step_timer_positive (st : Store) (e : Event) :
  timer_positive (closure st) -> timer_positive (closure (fst (step st e))).
Proof.
  destruct st as [n [tok au ato pp tm cl sp]]. unfold timer_positive.
  destruct e; unfold_handlers; cbn.
  all: case_all; subst; intros; cbn in *;
    leb_to_order; try lia; auto.
Qed.

(** A connection that is open and unauthenticated after an event was so
    before it, with the same expected token. *)
Lemma step_unauthenticated (st : Store) (e : Event) :
  timer_positive (closure st) ->
  authenticated (closure (fst (step st e))) = false ->
  closed (closure (fst (step st e))) = false ->
  AUTH_TOKEN (closure (fst (step st e))) = AUTH_TOKEN (closure st)
  /\ authenticated (closure st) = false
  /\ closed (closure st) = false
  /\ timer_after (timer (closure st)) (elapsed_by e)
       (timer (closure (fst (step st e)))) (snd (step st e)).
Proof.
  destruct st as [n [tok au ato pp tm cl sp]].
  unfold timer_after, timeout_close, timer_positive.
  destruct e; unfold_handlers; cbn.
  all: case_all; subst; intros; subst; cbn in *; try discriminate;
    leb_to_order;
    repeat split; try congruence; try (f_equal; lia); try lia; auto.
Qed.

Lemma run_timer_positive (st : Store) (evs : list Event) :
  timer_positive (closure st) -> timer_positive (closure (fst (run st evs))).
Proof.
  revert st. induction evs as [|e evs IH]; intros st H; cbn [run]; [exact H|].
  pose proof (step_timer_positive st e H) as H1.
  destruct (step st e) as [st1 c1]. cbn [fst] in H1.
  specialize (IH st1 H1). now destruct (run st1 evs).
Qed.

Lemma run_unauthenticated (st : Store) (evs : list Event) :
  timer_positive (closure st) ->
  authenticated (closure (fst (run st evs))) = false ->
  closed (closure (fst (run st evs))) = false ->
  AUTH_TOKEN (closure (fst (run st evs))) = AUTH_TOKEN (closure st)
  /\ authenticated (closure st) = false
  /\ closed (closure st) = false
  /\ timer_after (timer (closure st)) (elapsed evs)
       (timer (closure (fst (run st evs)))) (snd (run st evs)).
Proof.
  revert st. induction evs as [|e evs IH]; intros st Hpos; cbn [run elapsed].
  - cbn [fst snd]. intros Hau Hcl. repeat split; auto.
    unfold timer_after, timer_positive in *.
    destruct (timer (closure st)) as [r|]; [|reflexivity].
    destruct (r <=? 0) eqn:E; [apply Z.leb_le in E; lia|].
    f_equal. lia.
  - pose proof (step_timer_positive st e Hpos) as Hpos1.
    pose proof (step_unauthenticated st e Hpos) as Hstep.
    destruct (step st e) as [st1 c1]. cbn [fst snd] in *.
    specialize (IH st1 Hpos1).
    destruct (run st1 evs) as [st2 c2]. cbn [fst snd] in *.
    intros Hau Hcl. destruct (IH Hau Hcl) as (Htok & Hau1 & Hcl1 & Ht1).
    destruct (Hstep Hau1 Hcl1) as (Htok0 & Hau0 & Hcl0 & Ht0).
    repeat split; try congruence.
    pose proof (elapsed_nonneg evs) as Hnn.
    assert (0 <= elapsed_by e) as Hnn0
      by (destruct e; cbn; try lia; destruct (0 <=? ms) eqn:E; lia).
    unfold timer_after, timer_positive in *.
    destruct (timer (closure st)) as [r|].
    + destruct (r <=? elapsed_by e) eqn:E0.
      * apply Z.leb_le in E0. destruct Ht0 as [Hn Hin]. rewrite Hn in Ht1.
        destruct (r <=? elapsed_by e + elapsed evs) eqn:E; [|apply Z.leb_gt in E; lia].
        split; [exact Ht1 | apply in_or_app; now left].
      * apply Z.leb_gt in E0. rewrite Ht0 in Ht1.
        destruct (r - elapsed_by e <=? elapsed evs) eqn:E1.
        -- apply Z.leb_le in E1. destruct Ht1 as [Hn Hin].
           destruct (r <=? elapsed_by e + elapsed evs) eqn:E; [|apply Z.leb_gt in E; lia].
           split; [exact Hn | apply in_or_app; now right].
        -- apply Z.leb_gt in E1.
           destruct (r <=? elapsed_by e + elapsed evs) eqn:E; [apply Z.leb_le in E; lia|].
           rewrite Ht1. f_equal. lia.
    + rewrite Ht0 in Ht1. exact Ht1.
Qed.

(** On a connection that is already authenticated an 'auth' message with
    the right token is ignored; no acknowledgment is sent and the timer is
    not cleared again. *)
Lemma repeated_auth_ignored :
  truthy (AUTH_TOKEN (closure authenticated_idle)) = true
  /\ AUTH_TOKEN (closure authenticated_idle) = Some (js "secret")
  /\ step authenticated_idle
       (EvMessage (Parsed (msg_auth (JSString (js "secret")))))
     = (authenticated_idle, []).
Proof. repeat split. Qed.

(** C4 (defect). The claim wants every 'auth' message whose token differs
    from the secret answered by the close with 4001 "Unauthorized". On a
    connection that was just accepted with the secret "secret" and is not
    authenticated, the message whose token is the secret followed by a NUL
    character, a different string, is accepted instead: the connection
    becomes authenticated, the timer is cleared, the acknowledgment is sent
    and the socket is not closed. The zero padding of [secureTokenCompare]
    makes the two tokens equal. *)
Theorem nul_suffixed_token_authenticates :
  session (Some (js "secret")) browser 0 []
  = Some (awaiting_auth, [setTimeout 5000])
  /\ authenticated (closure awaiting_auth) = false
  /\ closed (closure awaiting_auth) = false
  /\ jsstring_eqb (js "secret" ++ [0]) (js "secret") = false
  /\ step awaiting_auth
       (EvMessage (Parsed (msg_auth (JSString (js "secret" ++ [0])))))
     = (accept_token awaiting_auth,
        [clearTimeout; ws_send (connected "Authentication successful")])
  /\ authenticated (closure (accept_token awaiting_auth)) = true.
Proof. repeat split. Qed.

(** ** The PTY of a connection *)

(** A [pty.spawn] call is made only while a resize message with valid
    dimensions is handled, and with these dimensions. *)
Lemma spawn_only_on_resize (st : Store) (e : Event) (p : Pty) (c r : Z) :
  In (pty_spawn p c r) (snd (step st e)) ->
  exists m, e = EvMessage (Parsed m)
            /\ strict_eq_string (type m) (js "resize") = true
            /\ valid_dimensions (cols m) (rows m) = Some (c, r).
Proof.
  destruct st as [n [tok au ato pp tm cl sp]].
  destruct e; unfold_handlers; cbn.
  all: case_all; subst; cbn; intros H;
    repeat (destruct H as [H|H]; try discriminate); try contradiction.
  injection H as <- <- <-. eauto.
Qed.

(** Only the 'close' handler takes the handle away, and it kills it. *)
Lemma pty_cleared_only_by_close (st : Store) (e : Event) (h : Pty) :
  ptyProcess (closure st) = Some h ->
  ptyProcess (closure (fst (step st e))) <> Some h ->
  e = EvClose
  /\ ptyProcess (closure (fst (step st e))) = None
  /\ In (pty_kill h) (snd (step st e)).
Proof.
  destruct st as [n [tok au ato pp tm cl sp]]. cbn. intros ->.
  destruct e; unfold_handlers; cbn.
  all: case_all; subst; cbn; intros H; try congruence;
    repeat split; auto using in_eq, in_cons.
Qed.

Lemma run_keeps_pty (st : Store) (evs : list Event) (h : Pty) :
  ptyProcess (closure st) = Some h ->
  has_close evs = false ->
  ptyProcess (closure (fst (run st evs))) = Some h.
Proof.
  revert st. induction evs as [|e evs IH]; intros st Hp Hnc; cbn [run].
  - exact Hp.
  - assert (He : e <> EvClose) by (intros ->; discriminate).
    assert (Hnc' : has_close evs = false) by (destruct e; auto; congruence).
    assert (Hp1 : ptyProcess (closure (fst (step st e))) = Some h).
    { destruct (option_eq_dec (ptyProcess (closure (fst (step st e)))) (Some h))
        as [E|E]; [exact E|].
      destruct (pty_cleared_only_by_close st e h Hp E) as [Hc _].
      contradiction. }
    destruct (step st e) as [st1 c1]. cbn [fst] in Hp1.
    specialize (IH st1 Hp1 Hnc'). now destruct (run st1 evs).
Qed.

(** A connection that is not authenticated holds no PTY and never had one. *)
Lemma step_no_pty_before_auth (st : Store) (e : Event) :
  no_pty_yet (closure st) -> no_pty_yet (closure (fst (step st e))).
Proof.
  destruct st as [n [tok au ato pp tm cl sp]]. unfold no_pty_yet. cbn.
  destruct e; unfold_handlers; cbn.
  all: case_all; subst; destruct_bools; cbn in *;
    intuition (try congruence; try lia).
Qed.

Lemma run_no_pty_before_auth (st : Store) (evs : list Event) :
  no_pty_yet (closure st) -> no_pty_yet (closure (fst (run st evs))).
Proof.
  revert st. induction evs as [|e evs IH]; intros st H; cbn [run]; [exact H|].
  pose proof (step_no_pty_before_auth st e H) as H1.
  destruct (step st e) as [st1 c1]. cbn [fst] in H1.
  specialize (IH st1 H1). now destruct (run st1 evs).
Qed.

(** No handler pings the peer or terminates the socket. *)
Lemma step_no_probe (st : Store) (e : Event) :
  forallb (fun c => negb (is_probe c)) (snd (step st e)) = true.
Proof.
  destruct st as [n [tok au ato pp tm cl sp]].
  destruct e; unfold_handlers; cbn.
  all: case_all; reflexivity.
Qed.

Lemma run_no_probe (st : Store) (evs : list Event) :
  forallb (fun c => negb (is_probe c)) (snd (run st evs)) = true.
Proof.
  revert st. induction evs as [|e evs IH]; intros st; cbn [run]; [reflexivity|].
  pose proof (step_no_probe st e) as H1.
  destruct (step st e) as [st1 c1]. specialize (IH st1).
  destruct (run st1 evs) as [st2 c2]. cbn [snd] in *.
  rewrite forallb_app, H1, IH. reflexivity.
Qed.

(** The passing of time and a 'pong' of the peer leave an authenticated
    connection as it is: there is no count of missed acknowledgments. *)
Lemma heartbeat_events_ignored (st : Store) (e : Event) :
  authenticated (closure st) = true ->
  timer (closure st) = None ->
  (e = EvPong \/ exists ms, e = EvElapse ms) ->
  step st e = (st, []).
Proof.
  destruct st as [n [tok au ato pp tm cl sp]]. cbn. intros -> ->.
  intros [->|[ms ->]]; unfold_handlers; cbn; case_all; reflexivity.
Qed.

(** What [handleConnection] leaves behind when it accepts. *)
Lemma handleConnection_accepts tok req n n' c cs :
  handleConnection tok req n = (n', Some c, cs) ->
  wf c /\ no_pty_yet c /\ spawned c = 0%nat /\ count_spawns cs = 0%nat
  /\ forallb (fun c => negb (is_probe c)) cs = true.
Proof.
  intros H. split; [eapply handleConnection_wf; eassumption|].
  unfold handleConnection in H.
  destruct (negb (isAllowedOrigin (origin req))); [discriminate|].
  destruct (n >=? MAX_CONNECTIONS); [discriminate|].
  injection H as _ <- <-. unfold no_pty_yet. cbn.
  destruct (truthy tok); cbn; auto.
Qed.

(** With a token required, a valid resize message that arrives before
    authentication is dropped and creates nothing; the valid resize that
    follows the authentication is the first one handled, and creates the
    PTY. *)
Lemma resize_before_auth_spawns_nothing :
  valid_dimensions (Int 80) (Int 24) = Some (80, 24)
  /\ session (Some (js "secret")) browser 0
       [EvMessage (Parsed (msg_resize (Int 80) (Int 24)))]
     = Some (awaiting_auth, [setTimeout 5000])
  /\ session (Some (js "secret")) browser 0
       [EvMessage (Parsed (msg_resize (Int 80) (Int 24)));
        EvMessage (Parsed (msg_auth (JSString (js "secret"))));
        EvMessage (Parsed (msg_resize (Int 100) (Int 30)))]
     = Some (with_pty authenticated_idle,
             [setTimeout 5000; clearTimeout;
              ws_send (connected "Authentication successful");
              pty_spawn 0%nat 100 30]).
Proof. repeat split. Qed.

Section Reachable.

(** A connection that [handleConnection] accepted, after any events: its
    store [st] and the calls [cs] made for it since its acceptance. *)
Variables (tok : option jsstring) (req : Req) (n : Z).
Variables (evs : list Event) (st : Store) (cs : list Call).
Hypothesis accepted : session tok req n evs = Some (st, cs).

Lemma session_inv :
  wf (closure st) /\ no_pty_yet (closure st)
  /\ spawned (closure st) = count_spawns cs
  /\ forallb (fun c => negb (is_probe c)) cs = true.
Proof using accepted.
  unfold session in accepted.
  destruct (handleConnection tok req n) as [[n' oc] cs0] eqn:Hconn.
  destruct oc as [c0|]; [|discriminate].
  destruct (handleConnection_accepts _ _ _ _ _ _ Hconn)
    as (Hwf0 & Hno0 & Hsp0 & Hcnt0 & Hpr0).
  set (st0 := {| activeConnections := n'; closure := c0 |}) in *.
  destruct (run_wf st0 evs Hwf0) as [Hwf Hsp].
  pose proof (run_no_pty_before_auth st0 evs Hno0) as Hno.
  pose proof (run_no_probe st0 evs) as Hpr.
  destruct (run st0 evs) as [st' cs'].
  injection accepted as -> <-. cbn [fst snd closure] in *.
  split; [exact Hwf|]. split; [exact Hno|]. split.
  - rewrite count_spawns_app. subst st0. cbn [closure] in Hsp. lia.
  - now rewrite forallb_app, Hpr0, Hpr.
Qed.

(** No connection ever pings its peer or terminates its socket. *)
Lemma session_no_probe : ~ In ws_terminate cs /\ ~ In ws_ping cs.
Proof using accepted.
  destruct session_inv as (_ & _ & _ & H). rewrite forallb_forall in H.
  split; intros Hin; apply H in Hin; discriminate.
Qed.

(** Before authentication no PTY was created. *)
Lemma no_pty_before_authentication :
  authenticated (closure st) = false ->
  count_spawns cs = 0%nat /\ ptyProcess (closure st) = None.
Proof using accepted.
  destruct session_inv as (_ & Hno & Hsp & _). unfold no_pty_yet in Hno.
  intros Hau. destruct (Hno Hau) as [H1 H2]. split; congruence.
Qed.

(** C6. Over the whole life of a connection [pty.spawn] is called at most
    once, and only while a valid resize message is handled, with its
    dimensions. Of the valid resize messages that reach the handler, that
    is on an open, authenticated connection, the first one (no PTY yet, no
    spawn so far) creates the PTY with exactly the requested columns and
    rows, and every later one resizes that PTY and creates nothing. A valid
    resize message received before authentication is dropped by the gate
    and does not count: no PTY was created so far, and the message makes no
    call and leaves the connection as it is. *)
Theorem pty_created_once :
  (count_spawns cs <= 1)%nat
  /\ (forall e p c r,
        In (pty_spawn p c r) (snd (step st e)) ->
        exists m, e = EvMessage (Parsed m)
                  /\ strict_eq_string (type m) (js "resize") = true
                  /\ valid_dimensions (cols m) (rows m) = Some (c, r))
  /\ (forall m c r,
        closed (closure st) = false ->
        authenticated (closure st) = true ->
        strict_eq_string (type m) (js "resize") = true ->
        valid_dimensions (cols m) (rows m) = Some (c, r) ->
        match ptyProcess (closure st) with
        | None =>
            count_spawns cs = 0%nat
            /\ step st (EvMessage (Parsed m))
               = (with_pty st, [pty_spawn 0%nat c r])
        | Some h =>
            count_spawns cs = 1%nat
            /\ step st (EvMessage (Parsed m)) = (st, [pty_resize h c r])
        end)
  /\ (forall m c r,
        authenticated (closure st) = false ->
        strict_eq_string (type m) (js "resize") = true ->
        valid_dimensions (cols m) (rows m) = Some (c, r) ->
        count_spawns cs = 0%nat
        /\ ptyProcess (closure st) = None
        /\ step st (EvMessage (Parsed m)) = (st, [])).
Proof using accepted.
  destruct session_inv as (Hwf & Hno & Hsp & _).
  split; [rewrite <- Hsp; now apply wf_spawned_le|].
  split; [intros e p c r; apply spawn_only_on_resize|].
  split.
  2:{ intros m c r Hau Hty _. destruct (Hno Hau) as [Hs Hp].
      destruct (resize_is_resize m Hty) as [Hna _].
      split; [congruence|]. split; [exact Hp|].
      clear accepted. destruct st as [k [tk au ato pp tm cl sp]].
      cbn in Hau. subst au. unfold_handlers. cbn.
      destruct cl; cbn; [reflexivity|]. rewrite Hna. reflexivity. }
  intros m c r Hcl Hau Hty Hdim.
  destruct (resize_is_resize m Hty) as [Hna Hni].
  clear accepted. destruct st as [k [tk au ato pp tm cl sp]]. unfold wf in Hwf.
  cbn in Hwf, Hsp, Hcl, Hau |- *. subst au cl.
  destruct pp as [h|].
  - destruct Hwf as (-> & Hs & _). split; [congruence|].
    unfold_handlers. cbn. rewrite Hna. cbn. rewrite Hni, Hty, Hdim. reflexivity.
  - split; [congruence|]. subst sp.
    unfold_handlers. cbn. rewrite Hna. cbn. rewrite Hni, Hty, Hdim. reflexivity.
Qed.

(** C10. When the PTY of a connection exits, the exit is relayed and the
    connection keeps its handle: whatever happens afterwards no other PTY
    is created for it, and until 'close' every valid input is written to
    the exited handle and every valid resize resizes it. Only the 'close'
    handler kills the handle and sets the variable to null. *)
Theorem exited_pty_kept (h : Pty) (exitCode signal : Z) (evs' : list Event) :
  ptyProcess (closure st) = Some h ->
  step st (EvPtyExit h exitCode signal) = (st, [ws_send (exit exitCode)])
  /\ count_spawns (snd (run st (EvPtyExit h exitCode signal :: evs'))) = 0%nat
  /\ (has_close evs' = false ->
      let st' := fst (run st (EvPtyExit h exitCode signal :: evs')) in
      ptyProcess (closure st') = Some h
      /\ (forall m,
            strict_eq_string (type m) (js "input") = true ->
            validateInput (data m) = Normal tt ->
            step st' (EvMessage (Parsed m)) = (st', [pty_write h (data m)]))
      /\ (forall m c r,
            strict_eq_string (type m) (js "resize") = true ->
            valid_dimensions (cols m) (rows m) = Some (c, r) ->
            step st' (EvMessage (Parsed m)) = (st', [pty_resize h c r])))
  /\ (forall s e,
        ptyProcess (closure s) = Some h ->
        ptyProcess (closure (fst (step s e))) <> Some h ->
        e = EvClose
        /\ ptyProcess (closure (fst (step s e))) = None
        /\ In (pty_kill h) (snd (step s e))).
Proof using accepted.
  intros Hp. destruct session_inv as (Hwf & _ & Hsp & _).
  assert (Hexit : step st (EvPtyExit h exitCode signal)
                  = (st, [ws_send (exit exitCode)])).
  { clear accepted. destruct st as [k [tk au ato pp tm cl sp]]. unfold wf in Hwf.
    cbn in Hwf, Hp |- *. subst pp. destruct Hwf as (-> & -> & _).
    reflexivity. }
  split; [exact Hexit|].
  cbn [run]. rewrite Hexit.
  destruct (run_wf st evs' Hwf) as [Hwf' Hsp'].
  pose proof (wf_spawned_le _ Hwf') as Hle.
  assert (Hone : spawned (closure st) = 1%nat).
  { unfold wf in Hwf. rewrite Hp in Hwf. tauto. }
  pose proof (run_keeps_pty st evs' h Hp) as Hkeep.
  destruct (run st evs') as [st' cs']. cbn [fst snd] in *.
  assert (Hnone : count_spawns cs' = 0%nat) by lia.
  split; [now rewrite count_spawns_app, Hnone|].
  split; [|intros s e; apply pty_cleared_only_by_close].
  intros Hnc. specialize (Hkeep Hnc).
  destruct st' as [k [tk au ato pp tm cl sp]]. unfold wf in Hwf'.
  cbn in Hwf', Hkeep |- *. subst pp. destruct Hwf' as (_ & _ & -> & ->).
  split; [reflexivity|]. split.
  - intros m Hty Hval. pose proof (input_is_input m Hty) as Hna.
    unfold_handlers. cbn. rewrite Hna. cbn. rewrite Hty. cbn.
    rewrite Hval. reflexivity.
  - intros m c r Hty Hdim. destruct (resize_is_resize m Hty) as [Hna Hni].
    unfold_handlers. cbn. rewrite Hna. cbn. rewrite Hni, Hty, Hdim. reflexivity.
Qed.

End Reachable.

Lemma pty_created_once_witness :
  step authenticated_idle (EvMessage (Parsed (msg_resize (Int 80) (Int 24))))
  = (with_pty authenticated_idle, [pty_spawn 0%nat 80 24])
  /\ step (with_pty authenticated_idle)
       (EvMessage (Parsed (msg_resize (Int 100) (Int 30))))
     = (with_pty authenticated_idle, [pty_resize 0%nat 100 30])
  /\ step awaiting_auth (EvMessage (Parsed (msg_resize (Int 80) (Int 24))))
     = (awaiting_auth, []).
Proof.
  split; [|split].
  3:{ destruct (pty_created_once (Some (js "secret")) browser 0 []
                  awaiting_auth [setTimeout 5000])
        as (_ & _ & _ & H); [reflexivity|].
      apply (H (msg_resize (Int 80) (Int 24)) 80 24); reflexivity. }
  - destruct (pty_created_once (Some (js "secret")) browser 0
                [EvMessage (Parsed (msg_auth (JSString (js "secret"))))]
                authenticated_idle
                [setTimeout 5000; clearTimeout;
                 ws_send (connected "Authentication successful")])
      as (_ & _ & H & _); [reflexivity|].
    apply (H (msg_resize (Int 80) (Int 24)) 80 24); reflexivity.
  - destruct (pty_created_once (Some (js "secret")) browser 0
                [EvMessage (Parsed (msg_auth (JSString (js "secret"))));
                 EvMessage (Parsed (msg_resize (Int 80) (Int 24)))]
                (with_pty authenticated_idle)
                [setTimeout 5000; clearTimeout;
                 ws_send (connected "Authentication successful");
                 pty_spawn 0%nat 80 24])
      as (_ & _ & H & _); [reflexivity|].
    apply (H (msg_resize (Int 100) (Int 30)) 100 30); reflexivity.
Defined.

Lemma exited_pty_kept_witness :
  step (with_pty authenticated_idle) (EvPtyExit 0%nat 0 0)
  = (with_pty authenticated_idle, [ws_send (exit 0)])
  /\ step (with_pty authenticated_idle)
       (EvMessage (Parsed (msg_input (JSString (js "ls")))))
     = (with_pty authenticated_idle, [pty_write 0%nat (JSString (js "ls"))]).
Proof.
  destruct (exited_pty_kept (Some (js "secret")) browser 0
              [EvMessage (Parsed (msg_auth (JSString (js "secret"))));
               EvMessage (Parsed (msg_resize (Int 80) (Int 24)))]
              (with_pty authenticated_idle)
              [setTimeout 5000; clearTimeout;
               ws_send (connected "Authentication successful");
               pty_spawn 0%nat 80 24]
              eq_refl 0%nat 0 0 [])
    as (H1 & _ & H3 & _); [reflexivity |].
  split; [exact H1|].
  destruct (H3 eq_refl) as (_ & Hin & _).
  apply (Hin (msg_input (JSString (js "ls")))); reflexivity.
Defined.

(** ** Liveness probes *)

(** C5 (defect). The claim wants the socket terminated once more than two
    probes went unanswered. A connection whose peer stays silent for four
    heartbeat intervals of 30000 ms is still open afterwards, and the only
    call made on its socket is the initial 'connected' envelope: there is
    no probe, no count of missed acknowledgments and no [terminate]. *)
Theorem silent_peer_never_terminated :
  session None browser 0
    [EvElapse 30000; EvElapse 30000; EvElapse 30000; EvElapse 30000]
  = Some (open_idle, [ws_send (connected "PTY initialized")])
  /\ closed (closure open_idle) = false
  /\ existsb is_probe [ws_send (connected "PTY initialized")] = false.
Proof. repeat split. Qed.

(** ** Admission *)

Lemma filter_tag_other (ws ws' : nat) (cs : list Call) :
  ws' <> ws -> filter (fun x => fst x = ws') (tag ws cs) = [].
Proof.
  intros Hne. unfold tag. induction cs as [|c cs IH]; [reflexivity|].
  cbn [map]. rewrite filter_cons_False by (cbn; congruence). exact IH.
Qed.

(** Accepting or refusing a connection makes no call on any other socket
    and leaves the other connections as they are. *)
Lemma connect_leaves_others (s : Server) (ws ws' : nat) tok req :
  ws' <> ws ->
  calls_on ws' (server_step s (Connect ws tok req)) = calls_on ws' s
  /\ sockets (server_step s (Connect ws tok req)) !! ws' = sockets s !! ws'.
Proof.
  intros Hne. unfold server_step, calls_on.
  destruct (sockets s !! ws) as [c|]; [split; reflexivity|].
  destruct (handleConnection tok req (active s)) as [[n oc] cs].
  cbn [calls sockets]. split.
  - now rewrite filter_app, filter_tag_other, app_nil_r.
  - destruct oc; [|reflexivity]. now rewrite lookup_insert_ne.
Qed.

(** C3 (defect). The claim wants an earlier connection from the same
    address closed when a new one is accepted. After two connections from
    100.64.0.1 both are registered and open, [activeConnections] is 2, and
    the only call on the first socket is its 'connected' envelope: it was
    not closed. [handleConnection] never reads the remote address. *)
Theorem same_address_keeps_both :
  let s := server_run server_start
             [Connect 0 None browser; Connect 1 None browser] in
  active s = 2
  /\ sockets s !! 0%nat = Some first_socket
  /\ sockets s !! 1%nat = Some first_socket
  /\ closed first_socket = false
  /\ calls_on 0 s = [ws_send (connected "PTY initialized")]
  /\ calls_on 1 s = [ws_send (connected "PTY initialized")].
Proof. cbn zeta. repeat split; vm_compute; reflexivity. Qed.

Lemma handleConnection_ignores_address tok o (a a' : jsstring) n :
  handleConnection tok {| origin := o; remoteAddress := a |} n
  = handleConnection tok {| origin := o; remoteAddress := a' |} n.
Proof. reflexivity. Qed.

(** ** The Tailscale range *)

Lemma octets_complete (P : Z -> bool) :
  forallb P octets = true -> forall n, 0 <= n <= 255 -> P n = true.
Proof.
  intros H n Hn. rewrite forallb_forall in H. apply H.
  unfold octets. apply in_map_iff. exists (Z.to_nat n). split; [lia|].
  apply in_seq. lia.
Qed.

Lemma split_no_sep (sep : Z) (p : jsstring) :
  existsb (Z.eqb sep) p = false -> split sep p = [p].
Proof.
  induction p as [|u p IH]; [reflexivity|]. cbn [existsb split].
  intros H. apply orb_false_iff in H as [Hu Hp].
  rewrite Z.eqb_sym, Hu, (IH Hp). reflexivity.
Qed.

Lemma split_app_sep (sep : Z) (p q : jsstring) :
  existsb (Z.eqb sep) p = false ->
  split sep (p ++ sep :: q) = p :: split sep q.
Proof.
  induction p as [|u p IH]; cbn [existsb split app].
  - intros _. now rewrite Z.eqb_refl.
  - intros H. apply orb_false_iff in H as [Hu Hp].
    rewrite Z.eqb_sym, Hu, (IH Hp). reflexivity.
Qed.

Lemma octet_text_no_dot (n : Z) :
  0 <= n <= 255 -> existsb (Z.eqb 46) (octet_text n) = false.
Proof.
  intros Hn.
  pose proof (octets_complete
    (fun n => negb (existsb (Z.eqb 46) (octet_text n)))) as H.
  specialize (H ltac:(vm_compute; reflexivity) n Hn).
  now apply negb_true_iff in H.
Qed.

Lemma parseInt_octet_text (n : Z) :
  0 <= n <= 255 -> parseInt (octet_text n) = Some n.
Proof.
  intros Hn.
  pose proof (octets_complete
    (fun n => match parseInt (octet_text n) with
              | Some k => k =? n
              | None => false
              end)) as H.
  specialize (H ltac:(vm_compute; reflexivity) n Hn). cbv beta in H.
  destruct (parseInt (octet_text n)); [|discriminate].
  apply Z.eqb_eq in H. now subst.
Qed.

(** On the dotted quad of four octets [isTailscaleIP] is the range check
    100.64.0.0 - 100.127.255.255. *)
Lemma isTailscaleIP_dotted_quad (a b c d : Z) :
  0 <= a <= 255 -> 0 <= b <= 255 -> 0 <= c <= 255 -> 0 <= d <= 255 ->
  isTailscaleIP (dotted_quad a b c d)
  = (a =? 100) && (64 <=? b) && (b <=? 127).
Proof.
  intros Ha Hb Hc Hd. unfold isTailscaleIP, dotted_quad.
  rewrite !split_app_sep by now apply octet_text_no_dot.
  rewrite split_no_sep by now apply octet_text_no_dot.
  cbn [length nth negb Z.of_nat Pos.of_succ_nat Pos.succ Z.eqb Pos.eqb].
  rewrite !parseInt_octet_text by assumption. cbn [nan_test].
  now rewrite Z.geb_leb.
Qed.

(** C8 (defect). The claim wants every string that is not an IPv4 address
    rejected. [isTailscaleIP] accepts the host name 100.64.evil.com, and
    through it [isAllowedOrigin] accepts the origin http://100.64.evil.com:
    only the number of dot-separated parts and the leading digits of the
    first two parts are looked at. The four boundary addresses of the
    claim are classified as it says. *)
Theorem isTailscaleIP_accepts_host_name :
  isTailscaleIP (js "100.64.evil.com") = true
  /\ isAllowedOrigin (OriginURL (js "100.64.evil.com")) = true
  /\ isTailscaleIP (js "100.64.0.0") = true
  /\ isTailscaleIP (js "100.127.255.255") = true
  /\ isTailscaleIP (js "100.63.255.255") = false
  /\ isTailscaleIP (js "100.128.0.0") = false.
Proof. repeat split. Qed.

(** * Further properties of [src/server.js] *)

(** ** Input validation *)

Lemma includes_nul_In (s : jsstring) : includes_nul s = true <-> In 0 s.
Proof.
  unfold includes_nul. rewrite existsb_exists. split.
  - intros (x & Hin & Hx). apply Z.eqb_eq in Hx. now subst.
  - intros Hin. exists 0. split; [exact Hin | reflexivity].
Qed.

(** X1. [validateInput] returns normally exactly on the strings of 1 to
    10000 code units that contain no NUL; everything else (a value that is
    not a string, the empty string, a longer string, a string with a NUL
    anywhere) throws. *)
Theorem validateInput_accepts_iff (input : JSValue) :
  validateInput input = Normal tt
  <-> exists s, input = JSString s
                /\ 1 <= Z.of_nat (length s) <= 10000 /\ ~ In 0 s.
Proof.
  unfold validateInput, MAX_INPUT_LENGTH. split.
  - destruct input as [| | | |s|]; try discriminate.
    destruct (Z.of_nat (length s) =? 0) eqn:E0; [discriminate|].
    destruct (Z.of_nat (length s) >? 10000) eqn:E1; [discriminate|].
    destruct (includes_nul s) eqn:E2; [discriminate|].
    intros _. exists s. apply Z.eqb_neq in E0.
    rewrite Z.gtb_ltb in E1. apply Z.ltb_ge in E1.
    split; [reflexivity|]. split; [lia|].
    intros Hin. apply includes_nul_In in Hin. congruence.
  - intros (s & -> & Hlen & Hnul).
    destruct (Z.of_nat (length s) =? 0) eqn:E0; [apply Z.eqb_eq in E0; lia|].
    destruct (Z.of_nat (length s) >? 10000) eqn:E1.
    { rewrite Z.gtb_ltb in E1. apply Z.ltb_lt in E1. lia. }
    destruct (includes_nul s) eqn:E2; [|reflexivity].
    apply includes_nul_In in E2. contradiction.
Qed.

(** ** Log sanitisation *)

Lemma sanitizeLogMessage_app (a b : jsstring) :
  sanitizeLogMessage (a ++ b) = sanitizeLogMessage a ++ sanitizeLogMessage b.
Proof. unfold sanitizeLogMessage. apply List.filter_app. Qed.

Lemma sanitizeLogMessage_id (m : jsstring) :
  existsb is_control m = false -> sanitizeLogMessage m = m.
Proof.
  unfold sanitizeLogMessage. induction m as [|u m IH]; [reflexivity|].
  cbn [existsb List.filter]. intros H. apply orb_false_iff in H as [Hu Hm].
  rewrite Hu. cbn [negb]. now rewrite IH.
Qed.

Lemma sanitizeLogMessage_clean (message : jsstring) :
  existsb is_control (sanitizeLogMessage message) = false.
Proof.
  unfold sanitizeLogMessage. induction message as [|u m IH]; [reflexivity|].
  cbn [List.filter]. destruct (is_control u) eqn:E; cbn [negb]; [exact IH|].
  cbn [existsb]. now rewrite E, IH.
Qed.

(** X2. The text that [sanitizeLogMessage] returns contains no carriage
    return, line feed, tab or other control character (code units 0 to 31
    and 127), whatever the message; sanitising a second time changes
    nothing. *)
Theorem sanitizeLogMessage_no_control (message : jsstring) :
  existsb is_control (sanitizeLogMessage message) = false
  /\ existsb (fun u => (u =? 10) || (u =? 13)) (sanitizeLogMessage message)
     = false
  /\ sanitizeLogMessage (sanitizeLogMessage message)
     = sanitizeLogMessage message.
Proof.
  pose proof (sanitizeLogMessage_clean message) as H.
  split; [exact H|]. split; [|now apply sanitizeLogMessage_id].
  apply not_true_is_false. intros Hex. apply existsb_exists in Hex.
  destruct Hex as (u & Hin & Hu).
  assert (Hc : existsb is_control (sanitizeLogMessage message) = true).
  { apply existsb_exists. exists u. split; [exact Hin|].
    unfold is_control. apply orb_true_iff in Hu as [Hu|Hu];
      apply Z.eqb_eq in Hu; subst; reflexivity. }
  congruence.
Qed.

(** X3. [sanitizeLogMessage] removes nothing else: a text without control
    characters is returned as it is, and the result for a concatenation is
    the concatenation of the results, so that what surrounds an injected
    control character is kept in order. *)
Theorem sanitizeLogMessage_keeps_text (before after : jsstring) (u : Z) :
  existsb is_control before = false ->
  existsb is_control after = false ->
  is_control u = true ->
  sanitizeLogMessage (before ++ u :: after) = before ++ after.
Proof.
  intros Hb Ha Hu.
  change (u :: after) with ([u] ++ after).
  rewrite !sanitizeLogMessage_app, (sanitizeLogMessage_id before Hb),
    (sanitizeLogMessage_id after Ha).
  unfold sanitizeLogMessage at 1. cbn [List.filter]. now rewrite Hu.
Qed.

Lemma sanitizeLogMessage_keeps_text_witness :
  sanitizeLogMessage (js "origin" ++ 10 :: js "[2026] forged")
  = js "origin" ++ js "[2026] forged".
Proof.
  apply (sanitizeLogMessage_keeps_text (js "origin") (js "[2026] forged") 10);
    reflexivity.
Defined.

(** X4. A line written by [log] holds one entry: when the timestamp has no
    control character, the line has none either, whatever the message. *)
Theorem log_single_line (timestamp message : jsstring) :
  existsb is_control timestamp = false ->
  existsb is_control (log timestamp message) = false.
Proof.
  intros Ht. unfold log. rewrite !existsb_app, Ht.
  rewrite (sanitizeLogMessage_clean message). reflexivity.
Qed.

Lemma log_single_line_witness :
  existsb is_control
    (log (js "2026-11-01T18:12:00.000Z") (js "a" ++ [13; 10] ++ js "b"))
  = false.
Proof. apply log_single_line. reflexivity. Defined.

(** ** Port and bind address *)

Lemma validatePort_accepts (num result : Double) :
  validatePort num = Normal result ->
  result = num
  /\ exists q, num = Finite q
               /\ QArith_base.Qle (QArith_base.inject_Z 1024) q
               /\ QArith_base.Qle q (QArith_base.inject_Z 65535).
Proof.
  unfold validatePort, MIN_PORT, MAX_PORT.
  destruct num as [|neg|q]; cbn; [discriminate | now destruct neg |].
  destruct (QArith_base.Qle_bool (QArith_base.inject_Z 1024) q) eqn:E1;
    [|discriminate].
  destruct (QArith_base.Qle_bool q (QArith_base.inject_Z 65535)) eqn:E2;
    [|discriminate].
  cbn. intros H. injection H as <-. split; [reflexivity|]. exists q.
  apply QArith_base.Qle_bool_iff in E1, E2. auto.
Qed.

(** X5. [validatePort] accepts exactly the finite numbers from 1024 to
    65535, bounds included and integral or not (3000.5 passes), and returns
    the number it was given; NaN, the infinities and every number outside
    the range throw. *)
Theorem validatePort_accepts_iff (num result : Double) :
  validatePort num = Normal result
  <-> result = num
      /\ exists q, num = Finite q
                   /\ QArith_base.Qle (QArith_base.inject_Z 1024) q
                   /\ QArith_base.Qle q (QArith_base.inject_Z 65535).
Proof.
  split; [apply validatePort_accepts|].
  intros (-> & q & -> & H1 & H2). unfold validatePort, MIN_PORT, MAX_PORT.
  cbn. apply QArith_base.Qle_bool_iff in H1, H2. now rewrite H1, H2.
Qed.

Example validatePort_fraction :
  validatePort (Finite (QArith_base.Qmake 6001 2))
  = Normal (Finite (QArith_base.Qmake 6001 2)).
Proof. reflexivity. Qed.

(** The whole start: the module constant [PORT], then [startServer]. *)
Lemma validateBindAddress_accepts (address result : jsstring) :
  validateBindAddress address = Normal result ->
  result = address /\ In address allowedAddresses.
Proof.
  unfold validateBindAddress.
  destruct (existsb (jsstring_eqb address) allowedAddresses) eqn:E;
    [|discriminate].
  cbn. intros H. injection H as <-. split; [reflexivity|].
  apply existsb_exists in E as (x & Hin & Hx).
  apply jsstring_eqb_eq in Hx. now subst.
Qed.

(** X6. Whatever the environment holds, a server that reaches
    [httpServer.listen] listens on a port from 1024 to 65535 and on one of
    127.0.0.1, 0.0.0.0, ::1 and ::, the loopback address 127.0.0.1 when
    BIND_ADDRESS is unset or empty; any other address, 'localhost'
    included, throws before anything listens. *)
Theorem start_listens_where_allowed (env_PORT : option Double)
    (env_BIND_ADDRESS : option jsstring) (port : Double) (address : jsstring) :
  start env_PORT env_BIND_ADDRESS = Normal (port, address) ->
  (exists q, port = Finite q
             /\ QArith_base.Qle (QArith_base.inject_Z 1024) q
             /\ QArith_base.Qle q (QArith_base.inject_Z 65535))
  /\ In address allowedAddresses
  /\ (truthy env_BIND_ADDRESS = false -> address = js "127.0.0.1")
  /\ (truthy env_BIND_ADDRESS = true -> env_BIND_ADDRESS = Some address)
  /\ (env_PORT = None -> port = of_int 3000).
Proof.
  unfold start, PORT, startServer. intros H.
  destruct (validatePort (default (of_int DEFAULT_PORT) env_PORT))
    as [p|] eqn:Hp; [|discriminate].
  apply validatePort_accepts in Hp as (-> & Hq).
  destruct (validateBindAddress _) as [a|] eqn:Ha; [|discriminate].
  apply validateBindAddress_accepts in Ha as (-> & Hin).
  injection H as <- <-.
  split; [exact Hq|]. split; [exact Hin|].
  split; [intros Hf; now rewrite Hf|].
  split; [|intros ->; reflexivity].
  intros Ht. rewrite Ht.
  destruct env_BIND_ADDRESS as [[|u s]|]; try discriminate. reflexivity.
Qed.

Lemma start_listens_where_allowed_witness :
  In (js "0.0.0.0") allowedAddresses
  /\ start None None = Normal (of_int 3000, js "127.0.0.1").
Proof.
  split.
  - apply (start_listens_where_allowed None (Some (js "0.0.0.0"))
             (of_int 3000) (js "0.0.0.0")). reflexivity.
  - reflexivity.
Defined.

(** ** Static files *)

Lemma route_None_iff (url : jsstring) : route url = None <-> ~ In url routes.
Proof.
  assert (Heq : forall x, jsstring_eqb url x = true <-> x = url)
    by (intros x; rewrite jsstring_eqb_eq; split; congruence).
  unfold route, routes. cbn [In]. rewrite <- !Heq.
  destruct (jsstring_eqb url (js "/")),
    (jsstring_eqb url (js "/index.html")),
    (jsstring_eqb url (js "/style.css")),
    (jsstring_eqb url (js "/client.js")); cbn;
    split; try discriminate; try reflexivity; intuition congruence.
Qed.

(** X7. A request whose URL is not exactly '/', '/index.html',
    '/style.css' or '/client.js' (a query string or a '..' segment makes it
    another URL) is answered 404 'Not Found' with the four security
    headers; no file is read and nothing is logged, whatever the file
    system holds. *)
Theorem unknown_url_not_found (within_public : PublicFile -> bool)
    (readFile : PublicFile -> ReadResult) (url : jsstring) :
  ~ In url routes ->
  on_request within_public readFile url
  = {| response :=
         {| status := 404;
            headers := [("Content-Type", "text/plain");
                        ("X-Content-Type-Options", "nosniff");
                        ("X-Frame-Options", "DENY");
                        ("Referrer-Policy", "no-referrer");
                        ("Permissions-Policy",
                         "camera=(), microphone=(), geolocation=()")]%string;
            body := inl "Not Found"%string |};
       reads := []; logged := [] |}.
Proof.
  intros H. apply route_None_iff in H. unfold on_request. now rewrite H.
Qed.

Lemma unknown_url_not_found_witness :
  status (response (on_request (fun _ => true) (fun _ => Content (js "<html>"))
                      (js "/?token=secret"))) = 404
  /\ reads (on_request (fun _ => true) (fun _ => Content (js "<html>"))
              (js "/../src/server.js")) = [].
Proof.
  split;
    rewrite unknown_url_not_found; try reflexivity;
    unfold routes; cbn; intros H; repeat destruct H as [H|H]; try discriminate H;
    exact H.
Defined.

(** X8. Every response, the error responses included, carries
    'X-Content-Type-Options: nosniff'; its status is 200, 403, 404 or 500;
    and a response other than 200 is 'text/plain' with one of three fixed
    bodies, so that neither a file content nor the message of a failure
    reaches the client. *)
Theorem every_response_nosniff (within_public : PublicFile -> bool)
    (readFile : PublicFile -> ReadResult) (url : jsstring) :
  let r := response (on_request within_public readFile url) in
  header "X-Content-Type-Options" (headers r) = Some "nosniff"%string
  /\ In (status r) [200; 403; 404; 500]
  /\ (status r = 200
      \/ header "Content-Type" (headers r) = Some "text/plain"%string
         /\ In (body r) [inl "Not Found"; inl "Forbidden";
                         inl "Internal Server Error"]%string).
Proof.
  unfold on_request. destruct (route url) as [f|]; cbn.
  - destruct (within_public f); cbn; [|intuition].
    destruct (readFile f); cbn; intuition.
  - intuition.
Qed.

(** X9. A response is 200 only when the URL names one of the three files,
    the path check passed and the file was read; that file was the only
    one read, the body is its content unchanged, the four security headers
    are set, the content type follows the file, and the content security
    policy is set for index.html and for no other file. *)
Theorem ok_serves_the_file (within_public : PublicFile -> bool)
    (readFile : PublicFile -> ReadResult) (url : jsstring) :
  let s := on_request within_public readFile url in
  status (response s) = 200 ->
  exists f content,
    route url = Some f /\ within_public f = true
    /\ readFile f = Content content
    /\ reads s = [f] /\ logged s = []
    /\ body (response s) = inr content
    /\ header "Content-Type" (headers (response s))
       = Some (match f with
               | index_html => "text/html"
               | style_css => "text/css"
               | client_js => "application/javascript"
               end)%string
    /\ header "X-Content-Type-Options" (headers (response s))
       = Some "nosniff"%string
    /\ header "X-Frame-Options" (headers (response s)) = Some "DENY"%string
    /\ header "Referrer-Policy" (headers (response s))
       = Some "no-referrer"%string
    /\ header "Permissions-Policy" (headers (response s))
       = Some "camera=(), microphone=(), geolocation=()"%string
    /\ header "Content-Security-Policy" (headers (response s))
       = match f with index_html => Some CSP | _ => None end.
Proof.
  unfold on_request. destruct (route url) as [f|]; cbn; [|discriminate].
  destruct (within_public f) eqn:Hw; cbn; [|discriminate].
  destruct (readFile f) as [c| |msg] eqn:Hr; cbn; try discriminate.
  intros _. exists f, c. destruct f; cbn; repeat split; try reflexivity; assumption.
Qed.

Lemma ok_serves_the_file_witness :
  exists f content,
    route (js "/") = Some f /\ f = index_html /\ content = js "<html>"
    /\ header "Content-Security-Policy"
         (headers (response (on_request (fun _ => true)
                               (fun _ => Content (js "<html>")) (js "/"))))
       = Some CSP.
Proof.
  destruct (ok_serves_the_file (fun _ => true)
              (fun _ => Content (js "<html>")) (js "/") eq_refl)
    as (f & c & Hroute & _ & Hread & _ & _ & _ & _ & _ & _ & _ & _ & Hcsp).
  exists f, c. injection Hroute as <-. injection Hread as <-.
  repeat split; exact Hcsp.
Defined.

(** ** The environment of the shell *)

Lemma copy_safe_lookup (process_env : gmap string jsstring)
    (keys : list string) (safeEnv : gmap string jsstring) (k : string) :
  Spawn.copy_safe process_env keys safeEnv !! k
  = match Spawn.truthy_var process_env k with
    | Some v => if bool_decide (k ∈ keys) then Some v else safeEnv !! k
    | None => safeEnv !! k
    end.
Proof.
  revert safeEnv. induction keys as [|key keys IH]; intros safeEnv;
    cbn [Spawn.copy_safe].
  - rewrite bool_decide_eq_false_2 by apply not_elem_of_nil.
    now destruct (Spawn.truthy_var process_env k).
  - destruct (decide (k = key)) as [->|Hne].
    + rewrite (bool_decide_eq_true_2 (key ∈ key :: keys)) by (apply elem_of_cons; now left).
      destruct (Spawn.truthy_var process_env key) as [v|] eqn:Hv; rewrite IH.
      * destruct (bool_decide (key ∈ keys)); [reflexivity|].
        apply lookup_insert_eq.
      * reflexivity.
    + assert (Hin : bool_decide (k ∈ key :: keys) = bool_decide (k ∈ keys)).
      { apply bool_decide_ext. rewrite elem_of_cons. tauto. }
      rewrite Hin.
      destruct (Spawn.truthy_var process_env key) as [v|] eqn:Hv; rewrite IH;
        [|reflexivity].
      rewrite lookup_insert_ne by congruence. reflexivity.
Qed.

Lemma truthy_var_Some (process_env : gmap string jsstring) (k : string)
    (v : jsstring) :
  Spawn.truthy_var process_env k = Some v
  <-> process_env !! k = Some v /\ v <> [].
Proof.
  unfold Spawn.truthy_var. destruct (process_env !! k) as [[|u s]|].
  - split; [discriminate | intros [H1 H2]; congruence].
  - split; [|intros [H _]; exact H].
    intros H. injection H as <-. split; [reflexivity | discriminate].
  - split; [discriminate | intros [H _]; discriminate].
Qed.

(** X10. The environment handed to [pty.spawn] holds only variables named
    in SAFE_ENV_KEYS, whatever the environment of the server holds (EDITOR,
    LD_PRELOAD and the token TINYTERMINAL_TOKEN never reach the shell); a
    variable other than TERM has the value it has for the server, which is
    not empty. *)
Theorem spawn_env_whitelisted (process_env : gmap string jsstring)
    (cols rows : option Z) (shell : option jsstring)
    (k : string) (v : jsstring) :
  Spawn.env (snd (Spawn.createPTY process_env cols rows shell)) !! k = Some v ->
  k ∈ Spawn.SAFE_ENV_KEYS
  /\ (k <> "TERM"%string -> process_env !! k = Some v /\ v <> []).
Proof.
  unfold Spawn.createPTY. cbn [snd Spawn.env].
  destruct (decide (k = "TERM"%string)) as [->|Hne].
  - intros _. split; [|congruence]. unfold Spawn.SAFE_ENV_KEYS.
    apply list_elem_of_In. cbn. tauto.
  - rewrite lookup_insert_ne by congruence. rewrite copy_safe_lookup.
    destruct (Spawn.truthy_var process_env k) as [w|] eqn:Hw;
      [|rewrite lookup_empty; discriminate].
    destruct (bool_decide (k ∈ Spawn.SAFE_ENV_KEYS)) eqn:Hin;
      [|rewrite lookup_empty; discriminate].
    intros H. injection H as <-. apply bool_decide_eq_true in Hin.
    split; [exact Hin|]. intros _. now apply truthy_var_Some.
Qed.

Lemma spawn_env_whitelisted_witness :
  ("PATH"%string ∈ Spawn.SAFE_ENV_KEYS)
  /\ Spawn.env (snd (Spawn.createPTY host_env None None None)) !! "EDITOR"%string
     = None.
Proof.
  split.
  - apply (spawn_env_whitelisted host_env None None None "PATH" (js "/usr/bin")).
    vm_compute. reflexivity.
  - vm_compute. reflexivity.
Defined.

(** X11. Every variable of SAFE_ENV_KEYS that is set and not empty for the
    server is passed to the shell unchanged, except TERM, which is always
    'xterm-256color', whether the server has a TERM or not; a variable that
    is unset or empty for the server is not passed. *)
Theorem spawn_env_passes_safe (process_env : gmap string jsstring)
    (cols rows : option Z) (shell : option jsstring) (k : string) :
  k ∈ Spawn.SAFE_ENV_KEYS ->
  Spawn.env (snd (Spawn.createPTY process_env cols rows shell)) !! k
  = if decide (k = "TERM"%string) then Some (js "xterm-256color")
    else match process_env !! k with
         | Some (u :: v) => Some (u :: v)
         | _ => None
         end.
Proof.
  intros Hin. unfold Spawn.createPTY. cbn [snd Spawn.env].
  destruct (decide (k = "TERM"%string)) as [->|Hne].
  - apply lookup_insert_eq.
  - rewrite lookup_insert_ne by congruence. rewrite copy_safe_lookup.
    rewrite (bool_decide_eq_true_2 _ Hin). rewrite lookup_empty.
    unfold Spawn.truthy_var. now destruct (process_env !! k) as [[|u s]|].
Qed.

Lemma spawn_env_passes_safe_witness :
  Spawn.env (snd (Spawn.createPTY host_env None None None)) !! "TERM"%string
  = Some (js "xterm-256color")
  /\ Spawn.env (snd (Spawn.createPTY host_env None None None)) !! "LANG"%string
     = None.
Proof.
  split.
  - rewrite spawn_env_passes_safe; [reflexivity|].
    apply list_elem_of_In. cbn. tauto.
  - rewrite spawn_env_passes_safe; [reflexivity|].
    apply list_elem_of_In. cbn. tauto.
Defined.

(** X12. The shell handed to [pty.spawn] is never the empty string: it is
    the [shell] argument when that is a non-empty string, else SHELL of the
    server when that is set and not empty, else '/bin/bash'; the terminal
    is 80 by 24 unless the caller gives the size. *)
Theorem spawn_shell_selected (process_env : gmap string jsstring)
    (cols rows : option Z) (shell : option jsstring) :
  let '(selectedShell, options) :=
    Spawn.createPTY process_env cols rows shell in
  selectedShell <> []
  /\ selectedShell
     = match shell, process_env !! "SHELL"%string with
       | Some (u :: s), _ => u :: s
       | _, Some (u :: s) => u :: s
       | _, _ => js "/bin/bash"
       end
  /\ Spawn.cols options = default 80 cols
  /\ Spawn.rows options = default 24 rows
  /\ Spawn.name options = "xterm-256color"%string
  /\ Spawn.cwd options = process_env !! "HOME"%string.
Proof.
  unfold Spawn.createPTY, Spawn.truthy_var.
  destruct shell as [[|u s]|]; cbn [truthy default];
    destruct (process_env !! "SHELL"%string) as [[|u' s']|];
    repeat split; discriminate.
Qed.

(** ** Token comparison on well-formed tokens *)

Lemma bytes_eqb_sym (a b : Buffer) : bytes_eqb a b = bytes_eqb b a.
Proof.
  revert b. induction a as [|x a IH]; intros [|y b]; cbn; try reflexivity.
  now rewrite Z.eqb_sym, IH.
Qed.

(** X13. [secureTokenCompare] does not depend on the order of its
    arguments, whatever their types. *)
Theorem secureTokenCompare_sym (a b : JSValue) :
  secureTokenCompare a b = secureTokenCompare b a.
Proof.
  destruct a as [| | | |a|], b as [| | | |b|]; try reflexivity.
  rewrite !secureTokenCompare_padded, Nat.max_comm. f_equal.
  apply bytes_eqb_sym.
Qed.

Lemma range_complete (P : Z -> bool) (n : nat) :
  forallb P (map Z.of_nat (seq 0 n)) = true ->
  forall x, 0 <= x < Z.of_nat n -> P x = true.
Proof.
  intros H x Hx. rewrite forallb_forall in H. apply H.
  apply in_map_iff. exists (Z.to_nat x). split; [lia|]. apply in_seq. lia.
Qed.

Lemma lor_lead (lead : Z) (n : nat) (x : Z) :
  forallb (fun x => Z.lor lead x =? lead + x) (map Z.of_nat (seq 0 n)) = true ->
  0 <= x < Z.of_nat n -> Z.lor lead x = lead + x.
Proof.
  intros H Hx. apply Z.eqb_eq.
  exact (range_complete (fun x => Z.lor lead x =? lead + x) n H x Hx).
Qed.

Lemma land_63 (x : Z) : Z.land x 0x3F = x mod 64.
Proof. change 0x3F with (Z.ones 6). now rewrite Z.land_ones by lia. Qed.

Lemma utf8_encode_arith (cp : Z) :
  0 <= cp < 0x110000 ->
  utf8_encode cp
  = if cp <? 0x80 then [cp]
    else if cp <? 0x800 then [192 + cp / 64; 128 + cp mod 64]
    else if cp <? 0x10000
         then [224 + cp / 4096; 128 + (cp / 64) mod 64; 128 + cp mod 64]
    else [240 + cp / 262144; 128 + (cp / 4096) mod 64;
          128 + (cp / 64) mod 64; 128 + cp mod 64].
Proof.
  intros Hcp. unfold utf8_encode.
  rewrite !land_63, !Z.shiftr_div_pow2 by lia.
  change (2 ^ 6) with 64. change (2 ^ 12) with 4096. change (2 ^ 18) with 262144.
  assert (H80 : forall x, Z.lor 0x80 (x mod 64) = 128 + x mod 64).
  { intros x. apply (lor_lead 0x80 64); [vm_compute; reflexivity|].
    pose proof (Z.mod_pos_bound x 64). lia. }
  rewrite !H80.
  destruct (cp <? 0x80) eqn:E1; [reflexivity|]. apply Z.ltb_ge in E1.
  destruct (cp <? 0x800) eqn:E2.
  { apply Z.ltb_lt in E2. f_equal.
    apply (lor_lead 0xC0 32); [vm_compute; reflexivity|].
    split; [apply Z.div_pos; lia | apply Z.div_lt_upper_bound; lia]. }
  apply Z.ltb_ge in E2.
  destruct (cp <? 0x10000) eqn:E3.
  { apply Z.ltb_lt in E3. f_equal.
    apply (lor_lead 0xE0 16); [vm_compute; reflexivity|].
    split; [apply Z.div_pos; lia | apply Z.div_lt_upper_bound; lia]. }
  apply Z.ltb_ge in E3. f_equal.
  apply (lor_lead 0xF0 8); [vm_compute; reflexivity|].
  split; [apply Z.div_pos; lia | apply Z.div_lt_upper_bound; lia].
Qed.

(** No encoding of a code point is the beginning of the encoding of
    another one. *)
Lemma utf8_encode_prefix_free (c1 c2 : Z) (x y : Buffer) :
  0 <= c1 < 0x110000 -> 0 <= c2 < 0x110000 ->
  utf8_encode c1 ++ x = utf8_encode c2 ++ y -> c1 = c2 /\ x = y.
Proof.
  intros H1 H2. rewrite !utf8_encode_arith by assumption.
  destruct (c1 <? 0x80) eqn:A1; [apply Z.ltb_lt in A1 | apply Z.ltb_ge in A1];
  [|destruct (c1 <? 0x800) eqn:A2;
    [apply Z.ltb_lt in A2 | apply Z.ltb_ge in A2];
    [|destruct (c1 <? 0x10000) eqn:A3;
      [apply Z.ltb_lt in A3 | apply Z.ltb_ge in A3]]];
  (destruct (c2 <? 0x80) eqn:B1; [apply Z.ltb_lt in B1 | apply Z.ltb_ge in B1];
   [|destruct (c2 <? 0x800) eqn:B2;
     [apply Z.ltb_lt in B2 | apply Z.ltb_ge in B2];
     [|destruct (c2 <? 0x10000) eqn:B3;
       [apply Z.ltb_lt in B3 | apply Z.ltb_ge in B3]]]);
  cbn [app]; intros E; injection E; intros;
    try (split; [|congruence]);
    Z.div_mod_to_equations; lia.
Qed.

Lemma utf8_encode_nonempty (cp : Z) : utf8_encode cp <> [].
Proof.
  unfold utf8_encode.
  destruct (cp <? 0x80); [discriminate|].
  destruct (cp <? 0x800); [discriminate|].
  destruct (cp <? 0x10000); discriminate.
Qed.

Lemma flat_map_utf8_inj (l1 l2 : list Z) :
  Forall (fun cp => 0 <= cp < 0x110000) l1 ->
  Forall (fun cp => 0 <= cp < 0x110000) l2 ->
  flat_map utf8_encode l1 = flat_map utf8_encode l2 -> l1 = l2.
Proof.
  intros F1. revert l2. induction F1 as [|c1 l1 Hc1 F1 IH];
    intros l2 F2 E; destruct F2 as [|c2 l2 Hc2 F2]; cbn [flat_map] in E.
  - reflexivity.
  - symmetry in E. apply app_eq_nil in E as [E _].
    now apply utf8_encode_nonempty in E.
  - apply app_eq_nil in E as [E _]. now apply utf8_encode_nonempty in E.
  - apply utf8_encode_prefix_free in E as [-> E]; try assumption.
    f_equal. now apply IH.
Qed.

Lemma Buffer_from_scalars (s : jsstring) :
  Buffer_from s = flat_map utf8_encode (scalars s).
Proof.
  remember (length s) as n eqn:Hn. revert s Hn.
  induction n as [n IH] using lt_wf_ind. intros s Hn.
  destruct s as [|u rest]; [reflexivity|].
  cbn [Buffer_from scalars].
  destruct (is_high_surrogate u).
  - destruct rest as [|v rest']; [reflexivity|].
    destruct (is_low_surrogate v); cbn [flat_map]; f_equal.
    + apply (IH (length rest')); [cbn in Hn; lia | reflexivity].
    + apply (IH (length (v :: rest'))); [cbn in *; lia | reflexivity].
  - destruct (is_low_surrogate u); cbn [flat_map]; f_equal;
      apply (IH (length rest)); cbn in Hn; lia || reflexivity.
Qed.

Ltac surrogate_bounds :=
  unfold is_high_surrogate, is_low_surrogate in *;
  repeat match goal with
         | H : _ && _ = true |- _ => apply andb_true_iff in H as [? ?]
         | H : _ && _ = false |- _ => apply andb_false_iff in H
         | H : negb _ = true |- _ => apply negb_true_iff in H
         | H : (_ <=? _) = true |- _ => apply Z.leb_le in H
         | H : (_ <=? _) = false |- _ => apply Z.leb_gt in H
         | H : (_ <? _) = true |- _ => apply Z.ltb_lt in H
         | H : (_ <? _) = false |- _ => apply Z.ltb_ge in H
         end.

(** The shape of a well-formed string: it is empty, or starts with a code
    unit that is no surrogate, or with a surrogate pair. *)
Lemma well_formed_cases (s : jsstring) :
  well_formed s = true ->
  s = []
  \/ (exists u rest, s = u :: rest /\ well_formed rest = true
                     /\ scalars s = u :: scalars rest
                     /\ 0 <= u < 0x10000 /\ (u < 0xD800 \/ 0xDFFF < u))
  \/ (exists u v rest, s = u :: v :: rest /\ well_formed rest = true
                       /\ scalars s
                          = (0x10000 + (u - 0xD800) * 0x400 + (v - 0xDC00))
                            :: scalars rest
                       /\ 0xD800 <= u <= 0xDBFF /\ 0xDC00 <= v <= 0xDFFF).
Proof.
  destruct s as [|u rest]; [now left|].
  cbn [well_formed scalars]. intros H. right.
  apply andb_true_iff in H as [Hr Hs].
  destruct (is_high_surrogate u) eqn:Hh.
  - right. destruct rest as [|v rest']; [discriminate|].
    apply andb_true_iff in Hs as [Hl Hw]. rewrite Hl.
    exists u, v, rest'. surrogate_bounds. repeat split; auto; lia.
  - left. apply andb_true_iff in Hs as [Hl Hw].
    apply negb_true_iff in Hl. rewrite Hl.
    exists u, rest. surrogate_bounds. repeat split; auto; lia.
Qed.

Lemma scalars_range (s : jsstring) :
  well_formed s = true -> Forall (fun cp => 0 <= cp < 0x110000) (scalars s).
Proof.
  remember (length s) as n eqn:Hn. revert s Hn.
  induction n as [n IH] using lt_wf_ind. intros s Hn Hw.
  destruct (well_formed_cases s Hw)
    as [->|[(u & rest & -> & Hwr & -> & Hu & _)
           |(u & v & rest & -> & Hwr & -> & Hu & Hv)]].
  - constructor.
  - constructor; [lia|]. apply (IH (length rest)); [cbn in Hn; lia|auto..].
  - constructor; [lia|]. apply (IH (length rest)); [cbn in Hn; lia|auto..].
Qed.

Lemma scalars_inj (a b : jsstring) :
  well_formed a = true -> well_formed b = true ->
  scalars a = scalars b -> a = b.
Proof.
  remember (length a) as n eqn:Hn. revert a b Hn.
  induction n as [n IH] using lt_wf_ind. intros a b Hn Ha Hb E.
  destruct (well_formed_cases a Ha)
    as [->|[(u & ra & -> & Hwa & Ea & Hu & Hus)
           |(u & v & ra & -> & Hwa & Ea & Hu & Hv)]];
  destruct (well_formed_cases b Hb)
    as [->|[(u' & rb & -> & Hwb & Eb & Hu' & Hus')
           |(u' & v' & rb & -> & Hwb & Eb & Hu' & Hv')]];
  rewrite ?Ea, ?Eb in E; try discriminate E; try reflexivity;
  injection E as E1 E2.
  - f_equal; [exact E1|]. apply (IH (length ra)); cbn in Hn; auto; lia.
  - lia.
  - lia.
  - assert (u = u' /\ v = v') as [-> ->] by lia.
    do 2 f_equal. apply (IH (length ra)); cbn in Hn; auto; lia.
Qed.

Lemma Buffer_from_inj (a b : jsstring) :
  well_formed a = true -> well_formed b = true ->
  Buffer_from a = Buffer_from b -> a = b.
Proof.
  intros Ha Hb E. rewrite !Buffer_from_scalars in E.
  apply scalars_inj; try assumption.
  apply flat_map_utf8_inj; auto using scalars_range.
Qed.

Lemma utf8_encode_zero (cp : Z) :
  0 <= cp < 0x110000 -> In 0 (utf8_encode cp) -> cp = 0.
Proof.
  intros Hcp. rewrite utf8_encode_arith by assumption.
  destruct (cp <? 0x80); [|destruct (cp <? 0x800); [|destruct (cp <? 0x10000)]];
    cbn [In]; intros H;
    repeat (destruct H as [H|H]; [Z.div_mod_to_equations; lia|]);
    contradiction.
Qed.

Lemma Buffer_from_zero (s : jsstring) :
  well_formed s = true -> In 0 (Buffer_from s) -> In 0 s.
Proof.
  remember (length s) as n eqn:Hn. revert s Hn.
  induction n as [n IH] using lt_wf_ind. intros s Hn Hw.
  rewrite Buffer_from_scalars.
  destruct (well_formed_cases s Hw)
    as [->|[(u & rest & -> & Hwr & -> & Hu & _)
           |(u & v & rest & -> & Hwr & -> & Hu & Hv)]];
    cbn [flat_map]; [contradiction|..]; rewrite in_app_iff;
    rewrite <- Buffer_from_scalars; intros [H|H].
  - apply utf8_encode_zero in H; [left; now symmetry | lia].
  - right. apply (IH (length rest)); cbn in Hn; auto; lia.
  - apply utf8_encode_zero in H; lia.
  - right. right. apply (IH (length rest)); cbn in Hn; auto; lia.
Qed.

(** X14. On tokens in which every surrogate has its pair and which contain
    no NUL character, [secureTokenCompare] is exactly the equality of the
    two strings: it returns true when they are equal and false when they
    differ, of one length or not. *)
Theorem secureTokenCompare_is_equality (a b : jsstring) :
  well_formed a = true -> well_formed b = true ->
  ~ In 0 a -> ~ In 0 b ->
  secureTokenCompare (JSString a) (JSString b) = Normal (jsstring_eqb a b).
Proof.
  intros Ha Hb Na Nb.
  destruct (secureTokenCompare_returns (JSString a) (JSString b)) as [r Hr].
  rewrite Hr. f_equal. destruct r.
  - symmetry. apply jsstring_eqb_eq.
    apply secureTokenCompare_true_iff in Hr.
    assert (Hz : forall x y n, well_formed x = true -> ~ In 0 x ->
                 Buffer_from x = Buffer_from y ++ repeat 0 n ->
                 Buffer_from x = Buffer_from y).
    { intros x y [|n] Hx Nx E; [now rewrite app_nil_r in E|].
      exfalso. apply Nx, Buffer_from_zero; [exact Hx|].
      rewrite E. apply in_or_app. right. now left. }
    destruct Hr as [[n E]|[n E]].
    + apply Buffer_from_inj; eauto.
    + symmetry. apply Buffer_from_inj; eauto.
  - destruct (jsstring_eqb a b) eqn:E; [|reflexivity].
    apply jsstring_eqb_eq in E. subst b.
    rewrite secureTokenCompare_refl in Hr. discriminate.
Qed.

Lemma secureTokenCompare_is_equality_witness :
  secureTokenCompare (JSString (js "test-token")) (JSString (js "wrong-token"))
  = Normal false.
Proof.
  apply (secureTokenCompare_is_equality (js "test-token") (js "wrong-token"));
    try reflexivity;
    cbn; intros H; repeat (destruct H as [H|H]; [discriminate H|]); exact H.
Defined.

(** ** Origins *)

Lemma split_length (sep : Z) (s : jsstring) :
  length (split sep s) = S (count_unit sep s).
Proof.
  unfold count_unit. induction s as [|u s IH]; [reflexivity|].
  cbn [split List.filter]. rewrite (Z.eqb_sym sep u).
  destruct (u =? sep); cbn [length]; [now rewrite IH|].
  destruct (split sep s) as [|p ps]; [discriminate IH|]. exact IH.
Qed.

(** X16. A host name that does not contain exactly three dots is outside
    the Tailscale range for [isTailscaleIP]: an IPv6 address, a name such
    as 'localhost' and an incomplete address such as '100.64.0' are all
    refused, whatever their digits. *)
Theorem isTailscaleIP_needs_three_dots (hostname : jsstring) :
  count_unit 46 hostname <> 3%nat -> isTailscaleIP hostname = false.
Proof.
  intros H. unfold isTailscaleIP. rewrite split_length.
  destruct (Z.of_nat (S (count_unit 46 hostname)) =? 4) eqn:E; [|reflexivity].
  apply Z.eqb_eq in E. lia.
Qed.

Lemma isTailscaleIP_needs_three_dots_witness :
  isTailscaleIP (js "100.64.0") = false
  /\ isTailscaleIP (js "fd7a:115c:a1e0::1") = false.
Proof.
  split; apply isTailscaleIP_needs_three_dots; vm_compute; lia.
Defined.

Lemma split_dotted_quad (a b c d : Z) :
  0 <= a <= 255 -> 0 <= b <= 255 -> 0 <= c <= 255 -> 0 <= d <= 255 ->
  split 46 (dotted_quad a b c d)
  = [octet_text a; octet_text b; octet_text c; octet_text d].
Proof.
  intros Ha Hb Hc Hd. unfold dotted_quad.
  rewrite !split_app_sep by now apply octet_text_no_dot.
  now rewrite split_no_sep by now apply octet_text_no_dot.
Qed.

Lemma octet_text_inj (a b : Z) :
  0 <= a <= 255 -> 0 <= b <= 255 -> octet_text a = octet_text b -> a = b.
Proof.
  intros Ha Hb E. apply (f_equal parseInt) in E.
  rewrite !parseInt_octet_text in E by assumption. congruence.
Qed.

(** X17. Among the origins whose host is the dotted quad of four octets,
    [isAllowedOrigin] admits exactly 127.0.0.1 and the addresses from
    100.64.0.0 to 100.127.255.255; every other IPv4 origin is refused. *)
Theorem isAllowedOrigin_dotted_quad (a b c d : Z) :
  0 <= a <= 255 -> 0 <= b <= 255 -> 0 <= c <= 255 -> 0 <= d <= 255 ->
  isAllowedOrigin (OriginURL (dotted_quad a b c d))
  = ((a =? 127) && (b =? 0) && (c =? 0) && (d =? 1))
    || ((a =? 100) && (64 <=? b) && (b <=? 127)).
Proof.
  intros Ha Hb Hc Hd. cbn [isAllowedOrigin].
  rewrite isTailscaleIP_dotted_quad by assumption.
  assert (Hl : jsstring_eqb (dotted_quad a b c d) (js "localhost") = false).
  { apply not_true_is_false. intros E. apply jsstring_eqb_eq in E.
    apply (f_equal (split 46)) in E. rewrite split_dotted_quad in E by assumption.
    discriminate E. }
  rewrite Hl. cbn [orb]. f_equal.
  destruct (jsstring_eqb (dotted_quad a b c d) (js "127.0.0.1")) eqn:E.
  - apply jsstring_eqb_eq in E. apply (f_equal (split 46)) in E.
    rewrite split_dotted_quad in E by assumption.
    change (split 46 (js "127.0.0.1"))
      with [octet_text 127; octet_text 0; octet_text 0; octet_text 1] in E.
    injection E as E1 E2 E3 E4.
    apply octet_text_inj in E1, E2, E3, E4; lia.
  - symmetry. apply not_true_is_false. intros H.
    repeat (apply andb_true_iff in H as [H ?]).
    repeat match goal with H : (_ =? _) = true |- _ => apply Z.eqb_eq in H end.
    subst. discriminate E.
Qed.

Lemma isAllowedOrigin_dotted_quad_witness :
  isAllowedOrigin (OriginURL (dotted_quad 192 168 1 1)) = false
  /\ isAllowedOrigin (OriginURL (dotted_quad 100 100 100 100)) = true.
Proof.
  split; rewrite isAllowedOrigin_dotted_quad by lia; reflexivity.
Defined.

(** ** What a connection sends, and when *)

Lemma count_app (p : Call -> bool) (a b : list Call) :
  count p (a ++ b) = (count p a + count p b)%nat.
Proof. unfold count. now rewrite List.filter_app, length_app. Qed.

Lemma step_authenticated (st : Store) (e : Event) :
  authenticated (closure st) = true ->
  authenticated (closure (fst (step st e))) = true.
Proof.
  destruct st as [n [tok au ato pp tm cl sp]]. cbn. intros ->.
  destruct e; unfold_handlers; cbn.
  all: case_all; reflexivity.
Qed.

Lemma run_authenticated (st : Store) (evs : list Event) :
  authenticated (closure st) = true ->
  authenticated (closure (fst (run st evs))) = true.
Proof.
  revert st. induction evs as [|e evs IH]; intros st H; cbn [run]; [exact H|].
  pose proof (step_authenticated st e H) as H1.
  destruct (step st e) as [st1 c1]. cbn [fst] in H1.
  specialize (IH st1 H1). now destruct (run st1 evs).
Qed.

Lemma step_pre_auth (st : Store) (e : Event) :
  no_pty_yet (closure st) ->
  authenticated (closure (fst (step st e))) = false ->
  forallb pre_auth_call (snd (step st e)) = true.
Proof.
  destruct st as [n [tok au ato pp tm cl sp]]. unfold no_pty_yet. cbn.
  destruct e; unfold_handlers; cbn.
  all: case_all; subst; cbn in *; intros Hno Hau; try reflexivity;
    try discriminate; destruct_bools; cbn in *; try discriminate;
    try reflexivity;
    destruct (Hno eq_refl) as [? ?]; subst; try discriminate; try lia.
Qed.

Lemma run_pre_auth (st : Store) (evs : list Event) :
  no_pty_yet (closure st) ->
  authenticated (closure (fst (run st evs))) = false ->
  forallb pre_auth_call (snd (run st evs)) = true.
Proof.
  revert st. induction evs as [|e evs IH]; intros st Hno; cbn [run];
    [reflexivity|].
  pose proof (step_no_pty_before_auth st e Hno) as Hno1.
  pose proof (step_pre_auth st e Hno) as Hc1.
  pose proof (run_authenticated (fst (step st e)) evs) as Hmono.
  destruct (step st e) as [st1 c1]. cbn [fst snd] in *.
  specialize (IH st1 Hno1).
  destruct (run st1 evs) as [st2 c2]. cbn [fst snd] in *.
  intros Hau.
  assert (Hau1 : authenticated (closure st1) = false).
  { destruct (authenticated (closure st1)); [|reflexivity].
    rewrite Hmono in Hau by reflexivity. discriminate. }
  rewrite forallb_app, (Hc1 Hau1), (IH Hau). reflexivity.
Qed.

Lemma step_connected (st : Store) (e : Event) :
  (Nat.b2n (authenticated (closure st)) + count is_connected (snd (step st e))
   = Nat.b2n (authenticated (closure (fst (step st e)))))%nat.
Proof.
  destruct st as [n [tok au ato pp tm cl sp]].
  destruct e; unfold_handlers; unfold count; cbn.
  all: case_all; subst; destruct_bools; cbn in *; try reflexivity;
    try discriminate.
Qed.

Lemma run_connected (st : Store) (evs : list Event) :
  (Nat.b2n (authenticated (closure st)) + count is_connected (snd (run st evs))
   = Nat.b2n (authenticated (closure (fst (run st evs)))))%nat.
Proof.
  revert st. induction evs as [|e evs IH]; intros st; cbn [run].
  - cbn. lia.
  - pose proof (step_connected st e) as H1.
    destruct (step st e) as [st1 c1]. specialize (IH st1).
    destruct (run st1 evs) as [st2 c2]. cbn [fst snd] in *.
    rewrite count_app. lia.
Qed.

Lemma step_timer_owned (st : Store) (e : Event) :
  timer_owned (closure st) ->
  timer_owned (closure (fst (step st e)))
  /\ (count is_timeout_close (snd (step st e))
      + pending (closure (fst (step st e))) <= pending (closure st))%nat.
Proof.
  destruct st as [n [tok au ato pp tm cl sp]]. unfold timer_owned, pending.
  destruct e; unfold_handlers; unfold count; cbn.
  all: case_all; subst; cbn in *; intros Hown;
    (split; [intros Hn; try congruence;
             try (destruct Hown as (? & ? & ?); [congruence|];
                  repeat split; congruence)
            | try lia]).
  all: try (destruct Hown as (? & ? & ?); congruence).
Qed.

Lemma run_timer_owned (st : Store) (evs : list Event) :
  timer_owned (closure st) ->
  timer_owned (closure (fst (run st evs)))
  /\ (count is_timeout_close (snd (run st evs))
      + pending (closure (fst (run st evs))) <= pending (closure st))%nat.
Proof.
  revert st. induction evs as [|e evs IH]; intros st H; cbn [run].
  - split; [exact H | cbn; lia].
  - destruct (step_timer_owned st e H) as [H1 L1].
    destruct (step st e) as [st1 c1]. cbn [fst snd] in *.
    destruct (IH st1 H1) as [H2 L2].
    destruct (run st1 evs) as [st2 c2]. cbn [fst snd] in *.
    split; [exact H2 | rewrite count_app; lia].
Qed.

Lemma handleConnection_initial tok req n n' c cs :
  handleConnection tok req n = (n', Some c, cs) ->
  n' = n + 1
  /\ c = {| AUTH_TOKEN := tok;
            authenticated := negb (truthy tok);
            authTimeout := if truthy tok then Some TimeoutHandle else None;
            ptyProcess := None;
            timer := if truthy tok then Some 5000 else None;
            closed := false;
            spawned := 0 |}
  /\ cs = (if truthy tok then [setTimeout 5000] else [])
          ++ (if negb (truthy tok)
              then [ws_send (connected "PTY initialized")] else []).
Proof.
  unfold handleConnection. intros H.
  destruct (negb (isAllowedOrigin (origin req))); [discriminate|].
  destruct (n >=? MAX_CONNECTIONS); [discriminate|].
  injection H as <- <- <-. repeat split.
Qed.

Lemma step_closed (st : Store) (e : Event) :
  closed (closure st) = true ->
  closed (closure (fst (step st e))) = true
  /\ forallb (fun c => negb (pty_op c)) (snd (step st e)) = true.
Proof.
  destruct st as [n [tok au ato pp tm cl sp]]. cbn. intros ->.
  destruct e; unfold_handlers; cbn.
  all: case_all; split; reflexivity.
Qed.

Lemma run_closed (st : Store) (evs : list Event) :
  closed (closure st) = true ->
  forallb (fun c => negb (pty_op c)) (snd (run st evs)) = true.
Proof.
  revert st. induction evs as [|e evs IH]; intros st H; cbn [run];
    [reflexivity|].
  destruct (step_closed st e H) as [H1 Hc1].
  destruct (step st e) as [st1 c1]. cbn [fst snd] in *.
  specialize (IH st1 H1). destruct (run st1 evs) as [st2 c2]. cbn [snd] in *.
  now rewrite forallb_app, Hc1, IH.
Qed.

Lemma step_quiet (st : Store) (e : Event) :
  quiet_after_kill (snd (step st e)) = true
  /\ (existsb is_kill (snd (step st e)) = true ->
      closed (closure (fst (step st e))) = true).
Proof.
  destruct st as [n [tok au ato pp tm cl sp]].
  destruct e; unfold_handlers; cbn.
  all: case_all; split; try reflexivity; try discriminate.
Qed.

Lemma quiet_after_kill_app (a b : list Call) :
  quiet_after_kill a = true ->
  (existsb is_kill a = true -> forallb (fun c => negb (pty_op c)) b = true) ->
  quiet_after_kill b = true ->
  quiet_after_kill (a ++ b) = true.
Proof.
  induction a as [|c a IH]; cbn [quiet_after_kill existsb app];
    intros Ha Hk Hb; [exact Hb|].
  destruct (is_kill c); cbn [orb] in Hk.
  - rewrite forallb_app, Ha, Hk; reflexivity.
  - now apply IH.
Qed.

Lemma run_quiet (st : Store) (evs : list Event) :
  quiet_after_kill (snd (run st evs)) = true.
Proof.
  revert st. induction evs as [|e evs IH]; intros st; cbn [run];
    [reflexivity|].
  destruct (step_quiet st e) as [Hq Hk].
  pose proof (run_closed (fst (step st e)) evs) as Hc.
  destruct (step st e) as [st1 c1]. cbn [fst snd] in *.
  specialize (IH st1). destruct (run st1 evs) as [st2 c2]. cbn [snd] in *.
  apply quiet_after_kill_app; auto.
Qed.

Lemma step_kills (st : Store) (e : Event) :
  wf (closure st) ->
  ((if closed (closure st) then spawned (closure st) else 0)
   + count is_kill (snd (step st e))
   = if closed (closure (fst (step st e)))
     then spawned (closure (fst (step st e))) else 0)%nat.
Proof.
  destruct st as [n [tok au ato pp tm cl sp]]. unfold wf. cbn.
  destruct e; unfold_handlers; unfold count; cbn.
  all: case_all; subst; destruct_bools; cbn in *;
    intuition (try congruence; try lia).
Qed.

Lemma run_kills (st : Store) (evs : list Event) :
  wf (closure st) ->
  ((if closed (closure st) then spawned (closure st) else 0)
   + count is_kill (snd (run st evs))
   = if closed (closure (fst (run st evs)))
     then spawned (closure (fst (run st evs))) else 0)%nat.
Proof.
  revert st. induction evs as [|e evs IH]; intros st Hwf; cbn [run].
  - cbn. lia.
  - destruct (step_wf st e Hwf) as [Hwf1 _].
    pose proof (step_kills st e Hwf) as H1.
    destruct (step st e) as [st1 c1]. cbn [fst snd] in *.
    specialize (IH st1 Hwf1).
    destruct (run st1 evs) as [st2 c2]. cbn [fst snd] in *.
    rewrite count_app. lia.
Qed.

(** X21. On an open connection a frame that cannot be parsed or is the
    JSON text null is answered with the generic error envelope, before or
    after authentication; once authenticated, so is a message of unknown
    type, an input that [validateInput] refuses and a resize whose columns
    or rows are not integers within 1..500 and 1..200. In every case the
    envelope is the only call and the connection is left as it was. *)
Theorem rejected_frame_answered (st : Store) (frame : Frame) :
  closed (closure st) = false ->
  authenticated (closure st) = true
  \/ frame = Unparseable \/ frame = ParsedNull ->
  rejected_frame frame = true ->
  step st (EvMessage frame)
  = (st, [ws_send (error "Failed to process request")]).
Proof.
  destruct st as [n [tok au ato pp tm cl sp]]. cbn. intros -> Hau Hrej.
  destruct frame as [| |m]; try reflexivity.
  destruct Hau as [->|[H|H]]; try discriminate H.
  unfold rejected_frame in Hrej. unfold_handlers. cbn.
  destruct (strict_eq_string (type m) (js "auth")); [discriminate|]. cbn.
  destruct (strict_eq_string (type m) (js "input")).
  - destruct (validateInput (data m)); [discriminate | reflexivity].
  - destruct (strict_eq_string (type m) (js "resize")); [|reflexivity].
    destruct (valid_dimensions (cols m) (rows m)); [discriminate | reflexivity].
Qed.

Lemma rejected_frame_answered_witness :
  step authenticated_idle (EvMessage (Parsed (msg_resize (Int 501) (Int 24))))
  = (authenticated_idle, [ws_send (error "Failed to process request")])
  /\ step awaiting_auth (EvMessage Unparseable)
     = (awaiting_auth, [ws_send (error "Failed to process request")]).
Proof.
  split; apply rejected_frame_answered; try reflexivity.
  - left. reflexivity.
  - right. left. reflexivity.
Defined.

Section Trace.

Variables (tok : option jsstring) (req : Req) (n : Z).
Variables (evs : list Event) (st : Store) (cs : list Call).
Hypothesis accepted : session tok req n evs = Some (st, cs).

(** X18. As long as a connection is not authenticated, the only calls made
    for it are [setTimeout], [clearTimeout], [ws.close] and the generic
    error envelope: no 'connected' acknowledgment, no output or exit of a
    PTY and no call to node-pty precede a successful authentication. *)
Theorem unauthenticated_calls :
  authenticated (closure st) = false -> forallb pre_auth_call cs = true.
Proof using accepted.
  unfold session in accepted.
  destruct (handleConnection tok req n) as [[n' oc] cs0] eqn:Hconn.
  destruct oc as [c0|]; [|discriminate].
  destruct (handleConnection_accepts _ _ _ _ _ _ Hconn) as (_ & Hno0 & _).
  destruct (handleConnection_initial _ _ _ _ _ _ Hconn) as (_ & Hc0 & Hcs0).
  set (st0 := {| activeConnections := n'; closure := c0 |}) in *.
  pose proof (run_pre_auth st0 evs Hno0) as Hrun.
  pose proof (run_authenticated st0 evs) as Hmono.
  destruct (run st0 evs) as [st' cs']. injection accepted as -> <-.
  cbn [fst snd] in *. intros Hau. rewrite forallb_app, (Hrun Hau), andb_true_r.
  subst cs0. destruct (truthy tok); [reflexivity|].
  subst st0 c0. cbn in Hmono. rewrite Hmono in Hau by reflexivity.
  discriminate.
Qed.

(** X19. The 'connected' envelope is sent exactly once to a connection
    that is authenticated (at acceptance when no token is required, at the
    successful 'auth' message otherwise) and never to one that is not. *)
Theorem connected_sent_once :
  count is_connected cs = Nat.b2n (authenticated (closure st)).
Proof using accepted.
  unfold session in accepted.
  destruct (handleConnection tok req n) as [[n' oc] cs0] eqn:Hconn.
  destruct oc as [c0|]; [|discriminate].
  destruct (handleConnection_initial _ _ _ _ _ _ Hconn) as (_ & Hc0 & Hcs0).
  set (st0 := {| activeConnections := n'; closure := c0 |}) in *.
  pose proof (run_connected st0 evs) as Hrun.
  destruct (run st0 evs) as [st' cs']. injection accepted as -> <-.
  cbn [fst snd] in *. rewrite count_app, <- Hrun.
  subst st0 c0 cs0. cbn. destruct (truthy tok); reflexivity.
Qed.

(** X20. [ws.close(4001, 'Authentication timeout')] is called at most
    once for a connection, and only when a token is required; once the
    connection is authenticated or closed no callback is pending, and
    whatever happens afterwards the call is not made again. *)
Theorem timeout_close_once :
  (count is_timeout_close cs <= 1)%nat
  /\ (truthy tok = false -> count is_timeout_close cs = 0%nat)
  /\ (authenticated (closure st) = true \/ closed (closure st) = true ->
      timer (closure st) = None
      /\ forall evs', count is_timeout_close (snd (run st evs')) = 0%nat).
Proof using accepted.
  unfold session in accepted.
  destruct (handleConnection tok req n) as [[n' oc] cs0] eqn:Hconn.
  destruct oc as [c0|]; [|discriminate].
  destruct (handleConnection_initial _ _ _ _ _ _ Hconn) as (_ & Hc0 & Hcs0).
  set (st0 := {| activeConnections := n'; closure := c0 |}) in *.
  assert (Hown0 : timer_owned (closure st0)).
  { subst st0 c0. unfold timer_owned. cbn.
    destruct (truthy tok); cbn; intros H; [|congruence].
    repeat split; congruence. }
  destruct (run_timer_owned st0 evs Hown0) as [Hown Hle].
  destruct (run st0 evs) as [st' cs']. injection accepted as -> <-.
  cbn [fst snd] in *.
  assert (H0 : count is_timeout_close cs0 = 0%nat)
    by (subst cs0; now destruct (truthy tok)).
  assert (Hp0 : pending (closure st0) = Nat.b2n (truthy tok))
    by (subst st0 c0; unfold pending; cbn; now destruct (truthy tok)).
  rewrite count_app, H0. cbn [Nat.add]. rewrite Hp0 in Hle.
  split; [destruct (truthy tok); cbn in Hle; lia|].
  split; [intros Hf; rewrite Hf in Hle; cbn in Hle; lia|].
  intros Hdone.
  assert (Hnone : timer (closure st) = None).
  { destruct (timer (closure st)) eqn:E; [|reflexivity].
    destruct Hown as (Ha & Hc & _); [congruence|].
    destruct Hdone; congruence. }
  split; [exact Hnone|]. intros evs'.
  destruct (run_timer_owned st evs' Hown) as [_ Hle'].
  unfold pending in Hle' at 2. rewrite Hnone in Hle'. lia.
Qed.

(** X22. When a connection has closed, every PTY created for it has been
    killed, and none is killed while it is open; in the calls of a
    connection no write, resize or spawn ever follows a kill. *)
Theorem pty_killed_with_connection :
  count is_kill cs
  = (if closed (closure st) then count_spawns cs else 0%nat)
  /\ quiet_after_kill cs = true.
Proof using accepted.
  destruct (session_inv _ _ _ _ _ _ accepted) as (_ & _ & Hsp & _).
  unfold session in accepted.
  destruct (handleConnection tok req n) as [[n' oc] cs0] eqn:Hconn.
  destruct oc as [c0|]; [|discriminate].
  destruct (handleConnection_accepts _ _ _ _ _ _ Hconn) as (Hwf0 & _).
  destruct (handleConnection_initial _ _ _ _ _ _ Hconn) as (_ & Hc0 & Hcs0).
  set (st0 := {| activeConnections := n'; closure := c0 |}) in *.
  pose proof (run_kills st0 evs Hwf0) as Hk.
  pose proof (run_quiet st0 evs) as Hq.
  destruct (run st0 evs) as [st' cs']. injection accepted as -> <-.
  cbn [fst snd] in *.
  assert (H0 : count is_kill cs0 = 0%nat
               /\ existsb is_kill cs0 = false /\ quiet_after_kill cs0 = true)
    by (subst cs0; now destruct (truthy tok)).
  destruct H0 as (H0 & H1 & H2). split.
  - rewrite count_app, H0, <- Hsp. subst st0 c0. cbn in Hk. exact Hk.
  - apply quiet_after_kill_app; auto. rewrite H1. discriminate.
Qed.

End Trace.

Lemma unauthenticated_calls_witness :
  forallb pre_auth_call
    [setTimeout 5000; ws_send (error "Failed to process request");
     ws_close (Some (4001, "Unauthorized"%string))] = true.
Proof.
  apply (unauthenticated_calls (Some (js "secret")) browser 0
           [EvMessage (Parsed (msg_resize (Int 80) (Int 24)));
            EvMessage Unparseable;
            EvMessage (Parsed (msg_auth (JSString (js "guess"))))]
           awaiting_auth); reflexivity.
Defined.

Lemma connected_sent_once_witness :
  count is_connected
    [setTimeout 5000; clearTimeout;
     ws_send (connected "Authentication successful")] = 1%nat.
Proof.
  apply (connected_sent_once (Some (js "secret")) browser 0
           [EvMessage (Parsed (msg_auth (JSString (js "secret"))));
            EvMessage (Parsed (msg_auth (JSString (js "secret"))))]
           authenticated_idle). reflexivity.
Defined.

Lemma timeout_close_once_witness :
  (count is_timeout_close [setTimeout 5000; timeout_close] <= 1)%nat.
Proof.
  apply (timeout_close_once (Some (js "secret")) browser 0
           [EvElapse 2500; EvElapse 2500; EvElapse 5000]
           (timer_ran awaiting_auth)). reflexivity.
Defined.

Lemma pty_killed_with_connection_witness :
  count is_kill
    [ws_send (connected "PTY initialized"); pty_spawn 0%nat 80 24;
     pty_kill 0%nat; ws_send (exit 0)] = 1%nat.
Proof.
  apply (pty_killed_with_connection None browser 0
           [EvMessage (Parsed (msg_resize (Int 80) (Int 24))); EvClose;
            EvPtyExit 0%nat 0 0]
           {| activeConnections := 0;
              closure := set_closed true (set_spawned 1 (closure open_idle)) |}).
  reflexivity.
Defined.

(** ** The connection limit *)

Lemma step_active (st : Store) (e : Event) :
  (closed (closure st) = true -> closed (closure (fst (step st e))) = true)
  /\ activeConnections (fst (step st e))
     = activeConnections st
       - (if closed (closure (fst (step st e))) && negb (closed (closure st))
          then 1 else 0).
Proof.
  destruct st as [n [tok au ato pp tm cl sp]].
  destruct e; unfold_handlers; cbn.
  all: case_all; subst; destruct_bools; cbn in *; split;
    try reflexivity; try discriminate; try lia; auto.
Qed.

Lemma open_size_fresh (m : gmap nat Closure) (ws : nat) (c : Closure) :
  m !! ws = None ->
  size (filter (fun p : nat * Closure => closed (snd p) = false) (<[ws:=c]> m))
  = (size (filter (fun p : nat * Closure => closed (snd p) = false) m)
     + Nat.b2n (negb (closed c)))%nat.
Proof.
  intros Hnone. rewrite map_filter_insert. cbn [snd]. case_decide as Hc.
  - rewrite map_size_insert_None
      by (apply map_lookup_filter_None_2; now left).
    rewrite Hc. cbn. lia.
  - rewrite delete_id by exact Hnone.
    destruct (closed c); [cbn; lia | congruence].
Qed.

Lemma open_size_update (m : gmap nat Closure) (ws : nat) (c c' : Closure) :
  m !! ws = Some c ->
  (size (filter (fun p : nat * Closure => closed (snd p) = false) (<[ws:=c']> m))
   + Nat.b2n (negb (closed c))
   = size (filter (fun p : nat * Closure => closed (snd p) = false) m)
     + Nat.b2n (negb (closed c')))%nat.
Proof.
  intros Hsome. rewrite map_filter_insert. cbn [snd].
  set (P := fun p : nat * Closure => closed (snd p) = false).
  assert (Hold : filter P m !! ws
                 = if closed c then None else Some c).
  { destruct (closed c) eqn:E.
    - apply map_lookup_filter_None_2. right. intros x Hx.
      assert (x = c) as -> by congruence. unfold P. cbn. congruence.
    - apply map_lookup_filter_Some_2; [exact Hsome | exact E]. }
  case_decide as Hc'.
  - rewrite Hc'. destruct (closed c) eqn:E; cbn.
    + rewrite map_size_insert_None by exact Hold. lia.
    + rewrite map_size_insert_Some by (rewrite Hold; eauto). lia.
  - assert (closed c' = true) as -> by (destruct (closed c'); congruence).
    rewrite map_filter_delete. destruct (closed c) eqn:E; cbn.
    + rewrite map_size_delete_None by exact Hold. lia.
    + rewrite map_size_delete_Some by (rewrite Hold; eauto).
      assert (size (filter P m) <> 0%nat); [|lia].
      intros Hz. apply map_size_empty_inv in Hz. rewrite Hz in Hold.
      rewrite lookup_empty in Hold. discriminate.
Qed.

Lemma server_step_counts (s : Server) (i : Input) :
  active s = Z.of_nat (open_count s) /\ active s <= MAX_CONNECTIONS ->
  active (server_step s i) = Z.of_nat (open_count (server_step s i))
  /\ active (server_step s i) <= MAX_CONNECTIONS.
Proof.
  intros [Heq Hle]. unfold open_count in *. destruct i as [ws tok req|ws e];
    cbn [server_step].
  - destruct (sockets s !! ws) eqn:Hws; [now split|].
    unfold handleConnection.
    destruct (negb (isAllowedOrigin (origin req))); [now split|].
    destruct (active s >=? MAX_CONNECTIONS) eqn:Hfull; [now split|].
    cbn [active sockets]. rewrite open_size_fresh by exact Hws.
    cbn [closed negb Nat.b2n]. rewrite Z.geb_leb in Hfull.
    apply Z.leb_gt in Hfull. split; lia.
  - destruct (sockets s !! ws) as [c|] eqn:Hws; [|now split].
    pose proof (step_active {| activeConnections := active s; closure := c |} e)
      as [Hmono Hact].
    destruct (step {| activeConnections := active s; closure := c |} e)
      as [st' cs']. cbn [fst snd activeConnections closure] in *.
    cbn [active sockets].
    pose proof (open_size_update (sockets s) ws c (closure st') Hws) as Hsz.
    rewrite Hact.
    destruct (closed c) eqn:Ec.
    + rewrite (Hmono eq_refl) in *. cbn in *. split; lia.
    + destruct (closed (closure st')); cbn in *; split; lia.
Qed.

Lemma server_run_counts (s : Server) (inputs : list Input) :
  active s = Z.of_nat (open_count s) /\ active s <= MAX_CONNECTIONS ->
  active (server_run s inputs) = Z.of_nat (open_count (server_run s inputs))
  /\ active (server_run s inputs) <= MAX_CONNECTIONS.
Proof.
  unfold server_run. revert s. induction inputs as [|i inputs IH];
    intros s Hs; cbn [fold_left]; [exact Hs|].
  apply IH. now apply server_step_counts.
Qed.

(** X23. Whatever connections arrive and whatever happens on them,
    [activeConnections] is the number of accepted connections on which
    'close' was not emitted yet, and it never exceeds MAX_CONNECTIONS. *)
Theorem active_counts_open (inputs : list Input) :
  let s := server_run server_start inputs in
  active s = Z.of_nat (open_count s) /\ 0 <= active s <= MAX_CONNECTIONS.
Proof.
  cbn zeta. destruct (server_run_counts server_start inputs) as [H1 H2].
  - split; [reflexivity | unfold MAX_CONNECTIONS; cbn; lia].
  - split; [exact H1 | lia].
Qed.

(** X24. A new connection is accepted exactly when its origin is allowed
    and fewer than MAX_CONNECTIONS accepted connections are open. When it
    is refused, [ws.close()] without status on the new socket is the only
    call, nothing is sent, and the server is otherwise unchanged. *)
Theorem connection_admitted_iff (inputs : list Input) (ws : nat)
    (tok : option jsstring) (req : Req) :
  let s := server_run server_start inputs in
  let s' := server_step s (Connect ws tok req) in
  sockets s !! ws = None ->
  if isAllowedOrigin (origin req)
     && (Z.of_nat (open_count s) <? MAX_CONNECTIONS)
  then exists c, sockets s' !! ws = Some c /\ closed c = false
                 /\ open_count s' = S (open_count s)
  else sockets s' = sockets s /\ active s' = active s
       /\ calls s' = calls s ++ [(ws, ws_close None)].
Proof.
  cbn zeta. intros Hws.
  assert (Heq : active (server_run server_start inputs)
                = Z.of_nat (open_count (server_run server_start inputs))).
  { apply server_run_counts. split; [reflexivity|].
    unfold MAX_CONNECTIONS. cbn. lia. }
  set (s := server_run server_start inputs) in *.
  cbn [server_step]. rewrite Hws. unfold handleConnection.
  destruct (isAllowedOrigin (origin req)); cbn [negb andb]; [|now repeat split].
  rewrite Z.geb_leb, Heq.
  destruct (Z.of_nat (open_count s) <? MAX_CONNECTIONS) eqn:E.
  - apply Z.ltb_lt in E.
    destruct (MAX_CONNECTIONS <=? Z.of_nat (open_count s)) eqn:E';
      [apply Z.leb_le in E'; lia|].
    eexists. cbn [sockets]. split; [apply lookup_insert_eq|].
    split; [reflexivity|]. unfold open_count. cbn [sockets].
    rewrite open_size_fresh by exact Hws. cbn. lia.
  - apply Z.ltb_ge in E.
    destruct (MAX_CONNECTIONS <=? Z.of_nat (open_count s)) eqn:E';
      [|apply Z.leb_gt in E'; lia].
    now repeat split.
Qed.

Lemma connection_admitted_iff_witness :
  exists c,
    sockets (server_step (server_run server_start [Connect 0 None browser])
               (Connect 1 None browser)) !! 1%nat = Some c
    /\ closed c = false.
Proof.
  destruct (connection_admitted_iff [Connect 0 None browser] 1 None browser eq_refl)
    as (c & H1 & H2 & _).
  exists c. split; assumption.
Defined.

(** ** The exact extent of two checks *)

(** X15. On the dotted quad of four octets [isTailscaleIP] is exactly the
    range check: it accepts the address if and only if the first octet is
    100 and the second one lies between 64 and 127, whatever the last
    two. *)
Theorem isTailscaleIP_on_addresses (a b c d : Z) :
  0 <= a <= 255 -> 0 <= b <= 255 -> 0 <= c <= 255 -> 0 <= d <= 255 ->
  isTailscaleIP (dotted_quad a b c d) = true <-> a = 100 /\ 64 <= b <= 127.
Proof.
  intros Ha Hb Hc Hd. rewrite isTailscaleIP_dotted_quad by assumption.
  rewrite !andb_true_iff, Z.eqb_eq, !Z.leb_le. tauto.
Qed.

Lemma isTailscaleIP_on_addresses_witness :
  isTailscaleIP (dotted_quad 100 127 255 255) = true.
Proof.
  apply isTailscaleIP_on_addresses; lia.
Defined.

(** X25. [secureTokenCompare] returns true on two strings exactly when the
    UTF-8 encoding of one is the encoding of the other followed by zero
    bytes only (none, when the encodings have one length), and false on
    every other pair of strings; it never throws. *)
Theorem secureTokenCompare_zero_padding (a b : jsstring) :
  (exists r, secureTokenCompare (JSString a) (JSString b) = Normal r)
  /\ (secureTokenCompare (JSString a) (JSString b) = Normal true
      <-> (exists n, Buffer_from a = Buffer_from b ++ repeat 0 n)
          \/ (exists n, Buffer_from b = Buffer_from a ++ repeat 0 n)).
Proof.
  split; [apply secureTokenCompare_returns | apply secureTokenCompare_true_iff].
Qed.

(** ** The authentication gate *)

(** A token that is not a string is rejected whatever the secret. *)
Lemma secureTokenCompare_non_string (v b : JSValue) :
  typeof v <> TString -> secureTokenCompare v b = Normal false.
Proof. destruct v; cbn; intros H; try reflexivity. now elim H. Qed.

(** Two well-formed strings without NUL characters that differ are told
    apart: the zero padding cannot make one of them out of the other. *)
Lemma secureTokenCompare_differs (a b : jsstring) :
  well_formed a = true -> well_formed b = true ->
  ~ In 0 a -> ~ In 0 b -> a <> b ->
  secureTokenCompare (JSString a) (JSString b) = Normal false.
Proof.
  intros Ha Hb Na Nb Hne.
  destruct (secureTokenCompare_returns (JSString a) (JSString b)) as [r Hr].
  destruct r; [exfalso | exact Hr].
  apply secureTokenCompare_true_iff in Hr.
  assert (Hz : forall x y k, well_formed x = true -> ~ In 0 x ->
               Buffer_from x = Buffer_from y ++ repeat 0 k ->
               Buffer_from x = Buffer_from y).
  { intros x y [|k] Hx Nx E; [now rewrite app_nil_r in E|].
    exfalso. apply Nx, Buffer_from_zero; [exact Hx|].
    rewrite E. apply in_or_app. right. now left. }
  destruct Hr as [[k E]|[k E]].
  - apply Hne, Buffer_from_inj; eauto.
  - apply Hne. symmetry. apply Buffer_from_inj; eauto.
Qed.

(** On an open connection that waits for its token, an 'auth' message the
    comparison rejects closes the socket and changes nothing else. *)
Lemma rejected_token_closes (secret : jsstring) (k : Z) (ato : option Timeout)
    (pp : option Pty) (tm : option Z) (sp : nat) (m : Message) :
  truthy (Some secret) = true ->
  strict_eq_string (type m) (js "auth") = true ->
  secureTokenCompare (token m) (JSString secret) = Normal false ->
  let st := {| activeConnections := k;
               closure := {| AUTH_TOKEN := Some secret; authenticated := false;
                             authTimeout := ato; ptyProcess := pp;
                             timer := tm; closed := false; spawned := sp |} |} in
  step st (EvMessage (Parsed m))
  = (st, [ws_close (Some (4001, "Unauthorized"%string))]).
Proof.
  intros Htruthy Hty Hrej. unfold_handlers. cbn. rewrite Hty. cbn.
  rewrite Htruthy. cbn. rewrite Hrej. reflexivity.
Qed.

(** The gate away from the zero padding. With a token required, on every
    open connection that is not yet authenticated: an 'auth' message
    carrying the token itself authenticates, clears the timer and sends the
    acknowledgment; one whose token is not a string, or is a string without
    NUL characters and unpaired surrogates that differs from the secret
    (itself such a string), closes with 4001 "Unauthorized" and changes
    nothing else; and the connection is closed with 4001 "Authentication
    timeout" when 5000 ms have passed since it was accepted. On a
    connection that is already authenticated an 'auth' message is ignored:
    no call is made and nothing changes. *)
Theorem auth_gate (secret : jsstring) (req : Req) (n : Z)
    (evs : list Event) (st : Store) (cs : list Call) (m : Message) :
  truthy (Some secret) = true ->
  session (Some secret) req n evs = Some (st, cs) ->
  strict_eq_string (type m) (js "auth") = true ->
  (authenticated (closure st) = true ->
   step st (EvMessage (Parsed m)) = (st, []))
  /\ (authenticated (closure st) = false ->
      closed (closure st) = false ->
      (token m = JSString secret ->
       step st (EvMessage (Parsed m))
       = (accept_token st,
          [clearTimeout; ws_send (connected "Authentication successful")]))
      /\ (typeof (token m) <> TString ->
          step st (EvMessage (Parsed m))
          = (st, [ws_close (Some (4001, "Unauthorized"%string))]))
      /\ (forall t,
            token m = JSString t ->
            well_formed t = true -> ~ In 0 t ->
            well_formed secret = true -> ~ In 0 secret ->
            t <> secret ->
            step st (EvMessage (Parsed m))
            = (st, [ws_close (Some (4001, "Unauthorized"%string))]))
      /\ (5000 <= elapsed evs -> In timeout_close cs)
      /\ (elapsed evs < 5000 ->
          forall ms, 5000 - elapsed evs <= ms ->
          step st (EvElapse ms) = (timer_ran st, [timeout_close]))).
Proof.
  intros Htruthy Hsess Hty. split.
  { intros Hau. destruct st as [k [tok au ato pp tm cl sp]].
    cbn in Hau. subst au. unfold_handlers. cbn.
    destruct cl; cbn; [reflexivity|]. rewrite Hty. cbn.
    destruct (truthy tok); reflexivity. }
  intros Hau Hcl.
  unfold session in Hsess.
  destruct (handleConnection (Some secret) req n) as [[n' oc] cs0] eqn:Hconn.
  destruct oc as [c0|]; [|discriminate].
  assert (Hc0 : c0 = {| AUTH_TOKEN := Some secret; authenticated := false;
                        authTimeout := Some TimeoutHandle; ptyProcess := None;
                        timer := Some 5000; closed := false; spawned := 0 |}).
  { unfold handleConnection in Hconn. rewrite Htruthy in Hconn.
    destruct (negb (isAllowedOrigin (origin req))); [discriminate|].
    destruct (n >=? MAX_CONNECTIONS); [discriminate|].
    now injection Hconn as _ <- _. }
  pose proof (run_unauthenticated
                {| activeConnections := n'; closure := c0 |} evs) as Hrun.
  destruct (run {| activeConnections := n'; closure := c0 |} evs) as [st' cs'].
  injection Hsess as -> <-. cbn [fst snd closure] in Hrun.
  destruct Hrun as (Htok & _ & _ & Htimer); auto.
  { subst c0. cbn. lia. }
  subst c0. cbn [AUTH_TOKEN timer] in Htok, Htimer. unfold timer_after in Htimer.
  destruct st as [k [tok au ato pp tm cl sp]]. cbn in Hau, Hcl, Htok, Htimer.
  subst au cl tok.
  split; [|split; [|split; [|split]]].
  - intros Heq. unfold_handlers. cbn. rewrite Hty. cbn. rewrite Htruthy. cbn.
    rewrite Heq, secureTokenCompare_refl. reflexivity.
  - intros Hns. apply (rejected_token_closes secret k ato pp tm sp m Htruthy Hty).
    now apply secureTokenCompare_non_string.
  - intros t Heq Ht Nt Hs Ns Hne.
    apply (rejected_token_closes secret k ato pp tm sp m Htruthy Hty).
    rewrite Heq. now apply secureTokenCompare_differs.
  - intros Hle. apply Z.leb_le in Hle. rewrite Hle in Htimer.
    apply in_or_app. right. apply Htimer.
  - intros Hlt ms Hms. apply Z.leb_gt in Hlt. rewrite Hlt in Htimer. subst tm.
    apply Z.leb_gt in Hlt. pose proof (elapsed_nonneg evs).
    unfold_handlers. cbn.
    destruct (0 <=? ms) eqn:E0; [|apply Z.leb_gt in E0; lia].
    destruct (5000 - elapsed evs <=? ms) eqn:E1; [|apply Z.leb_gt in E1; lia].
    reflexivity.
Qed.

Lemma auth_gate_witness :
  step awaiting_auth (EvMessage (Parsed (msg_auth (JSString (js "secret")))))
  = (accept_token awaiting_auth,
     [clearTimeout; ws_send (connected "Authentication successful")])
  /\ step awaiting_auth (EvMessage (Parsed (msg_auth (JSString (js "guess")))))
     = (awaiting_auth, [ws_close (Some (4001, "Unauthorized"%string))])
  /\ step awaiting_auth (EvMessage (Parsed (msg_auth (JSNumber (Int 42)))))
     = (awaiting_auth, [ws_close (Some (4001, "Unauthorized"%string))])
  /\ step awaiting_auth (EvElapse 5000)
     = (timer_ran awaiting_auth, [timeout_close])
  /\ step authenticated_idle
       (EvMessage (Parsed (msg_auth (JSString (js "secret")))))
     = (authenticated_idle, []).
Proof.
  pose proof (auth_gate (js "secret") browser 0 [] awaiting_auth
                [setTimeout 5000]) as G.
  split; [|split; [|split; [|split]]].
  - destruct (G (msg_auth (JSString (js "secret"))) eq_refl eq_refl eq_refl)
      as (_ & H).
    destruct (H eq_refl eq_refl) as (H1 & _). apply H1. reflexivity.
  - destruct (G (msg_auth (JSString (js "guess"))) eq_refl eq_refl eq_refl)
      as (_ & H).
    destruct (H eq_refl eq_refl) as (_ & _ & H3 & _).
    apply (H3 (js "guess")); [reflexivity | reflexivity | | reflexivity | |].
    + intros Hin. vm_compute in Hin. intuition lia.
    + intros Hin. vm_compute in Hin. intuition lia.
    + intros Heq. vm_compute in Heq. discriminate.
  - destruct (G (msg_auth (JSNumber (Int 42))) eq_refl eq_refl eq_refl)
      as (_ & H).
    destruct (H eq_refl eq_refl) as (_ & H2 & _). apply H2. discriminate.
  - destruct (G (msg_auth (JSString (js "secret"))) eq_refl eq_refl eq_refl)
      as (_ & H).
    destruct (H eq_refl eq_refl) as (_ & _ & _ & _ & H5). apply H5; cbn; lia.
  - destruct (auth_gate (js "secret") browser 0
                [EvMessage (Parsed (msg_auth (JSString (js "secret"))))]
                authenticated_idle
                [setTimeout 5000; clearTimeout;
                 ws_send (connected "Authentication successful")]
                (msg_auth (JSString (js "secret")))
                eq_refl eq_refl eq_refl)
      as (H & _).
    apply H. reflexivity.
Defined.
